(** * SvelteKit SSE boilerplate: the concurrent item processor, the session
      registry behind the two endpoints, and the client subscriber.

    The development embeds [src/SSE/server.ts] ([processConcurrently],
    [GET], [POST]) and the client helper [streamData] and states the
    properties of the specification over that embedding.

    JavaScript runs handlers to completion on one thread.  Every handler of
    the source (the body of the [for] loop, the continuation of
    [await processItem(item)], a tick of the interval timer, a callback of
    the stream) is therefore one atomic step of a labelled transition
    system; the environment picks which enabled handler runs next. *)

From Stdlib Require Import String Ascii Bool Arith Lia List.
From stdpp Require Import base option list strings gmap fin_maps.
Import ListNotations.

(** ** Strings written by the server *)

Definition nl : string := String "010"%char EmptyString.

(** [':\n\n'], [server.ts] line 41. *)
Definition HEARTBEAT_CHUNK : string :=
  String.append ":" (String.append nl nl).

(** ['event: end-of-stream\n\n'], line 51. *)
Definition END_OF_STREAM_CHUNK : string :=
  String.append "event: end-of-stream" (String.append nl nl).

(** ['\n'], line 67. *)
Definition SEPARATOR_CHUNK : string := nl.

(** ** Values of the run *)

(** What a [catch] clause or a rejected promise carries.  [TypeError] is
    what [controller.enqueue] and [controller.close] throw on a stream
    that is no longer readable; [Thrown] is a rejection reason of the
    caller's transform. *)
Inductive Err : Type :=
| TypeError
| Thrown (reason : string).

(** Settlement of the promise returned by one [processItem(item)] call.
    The transform "should return a string or null". *)
Inductive Outcome : Type :=
| Fulfilled (itemString : option string)
| Rejected (err : Err).

(** The test [if (itemString)] of line 65: [null] and the empty string are
    falsy, every other string is truthy. *)
Definition truthy (itemString : option string) : bool :=
  match itemString with
  | None => false
  | Some s => negb (String.eqb s EmptyString)
  end.

(** State of the promise built on line 47. *)
Inductive Settlement : Type :=
| Pending
| Resolved
| RejectedWith (err : Err).

(** [resolve()] and [reject(err)] only act on a pending promise. *)
Definition resolve (p : Settlement) : Settlement :=
  match p with Pending => Resolved | _ => p end.

Definition reject (err : Err) (p : Settlement) : Settlement :=
  match p with Pending => RejectedWith err | _ => p end.

(** State of the [ReadableStreamDefaultController]: it accepts chunks only
    while the stream is readable and no close was requested. *)
Inductive Chan : Type :=
| Readable
| Closed
| Errored.

(** A chunk accepted by the controller, tagged with the [enqueue] call that
    produced it; [wire] is the string that call passes. *)
Inductive Chunk : Type :=
| Heartbeat
| Data (itemString : string)
| Separator
| EndOfStream.

Definition wire (c : Chunk) : string :=
  match c with
  | Heartbeat => HEARTBEAT_CHUNK
  | Data s => s
  | Separator => SEPARATOR_CHUNK
  | EndOfStream => END_OF_STREAM_CHUNK
  end.

Definition is_heartbeat (c : Chunk) : bool :=
  match c with Heartbeat => true | _ => false end.

Definition is_end_of_stream (c : Chunk) : bool :=
  match c with EndOfStream => true | _ => false end.

Definition is_data (c : Chunk) : bool :=
  match c with Data _ => true | _ => false end.

(** ** The concurrent item processor *)

Module Processor.
Section Run.

Context {Item : Type}.

(** The variables [processConcurrently] closes over, together with what
    its handlers have done to the outside: the chunks handed to the
    controller, the errors printed by [console.log], and the rejections
    of the promises of [processNext()] calls, which nobody awaits. *)
Record Run : Type := mkRun {
  queue : list Item;            (* [queue], line 36 *)
  activePromises : nat;         (* [activePromises], line 37 *)
  inflight : list Item;         (* activations suspended on line 64 *)
  invoked : list Item;          (* arguments of [processItem], oldest first *)
  heartbeat : bool;             (* is the interval of line 39 still armed *)
  chan : Chan;                  (* state of [controller] *)
  sink : list Chunk;            (* chunks accepted by [controller] *)
  promise : Settlement;         (* the promise of line 47 *)
  logged : list Err;            (* [console.log(err)], line 43 *)
  unhandled : list Err          (* rejected [processNext()] promises *)
}.

Definition with_sink (st : Run) (s : list Chunk) : Run :=
  mkRun (queue st) (activePromises st) (inflight st) (invoked st)
        (heartbeat st) (chan st) s (promise st) (logged st) (unhandled st).

Definition with_promise (st : Run) (p : Settlement) : Run :=
  mkRun (queue st) (activePromises st) (inflight st) (invoked st)
        (heartbeat st) (chan st) (sink st) p (logged st) (unhandled st).

Definition with_heartbeat (st : Run) (b : bool) : Run :=
  mkRun (queue st) (activePromises st) (inflight st) (invoked st)
        b (chan st) (sink st) (promise st) (logged st) (unhandled st).

Definition with_chan (st : Run) (c : Chan) : Run :=
  mkRun (queue st) (activePromises st) (inflight st) (invoked st)
        (heartbeat st) c (sink st) (promise st) (logged st) (unhandled st).

Definition with_logged (st : Run) (l : list Err) : Run :=
  mkRun (queue st) (activePromises st) (inflight st) (invoked st)
        (heartbeat st) (chan st) (sink st) (promise st) l (unhandled st).

Definition with_unhandled (st : Run) (l : list Err) : Run :=
  mkRun (queue st) (activePromises st) (inflight st) (invoked st)
        (heartbeat st) (chan st) (sink st) (promise st) (logged st) l.

Definition with_activePromises (st : Run) (n : nat) : Run :=
  mkRun (queue st) n (inflight st) (invoked st)
        (heartbeat st) (chan st) (sink st) (promise st) (logged st)
        (unhandled st).

Definition with_inflight (st : Run) (l : list Item) : Run :=
  mkRun (queue st) (activePromises st) l (invoked st)
        (heartbeat st) (chan st) (sink st) (promise st) (logged st)
        (unhandled st).

(** [controller.enqueue(chunk)]: appends on a readable stream, throws a
    [TypeError] otherwise. *)
Definition enqueue (c : Chunk) (st : Run) : Run + Err :=
  match chan st with
  | Readable => inl (with_sink st (sink st ++ [c]))
  | _ => inr TypeError
  end.

(** The synchronous part of [processNext] (lines 49-61): everything up
    to the call [processItem(item)], at which the activation suspends.
    The terminal [enqueue] is outside every [try]: when it throws, the
    [async] function's own promise rejects, [resolve()] is skipped, and
    nobody handles that rejection. *)
Definition processNext (concurrency : nat) (st : Run) : Run :=
  if bool_decide (queue st = []) && (activePromises st =? 0) then
    let st1 := with_heartbeat st false in          (* clearInterval *)
    match enqueue EndOfStream st1 with
    | inl st2 => with_promise st2 (resolve (promise st2))
    | inr err => with_unhandled st1 (unhandled st1 ++ [err])
    end
  else if bool_decide (queue st = []) || (concurrency <=? activePromises st)
  then st
  else
    match queue st with
    | [] => st
    | item :: rest =>                               (* queue.shift() *)
        mkRun rest (S (activePromises st)) (inflight st ++ [item])
              (invoked st ++ [item]) (heartbeat st) (chan st) (sink st)
              (promise st) (logged st) (unhandled st)
    end.

(** The loop of lines 77-79. *)
Fixpoint launch (concurrency : nat) (i : nat) (st : Run) : Run :=
  match i with
  | O => st
  | S i' => launch concurrency i' (processNext concurrency st)
  end.

(** State right after [setInterval] (lines 36-45), before the loop. *)
Definition initial (items : list Item) (controller : Chan) : Run :=
  mkRun items 0 [] [] true controller [] Pending [] [].

(** [processConcurrently(items, processItem, controller, concurrency)]
    up to the point where it returns its promise. *)
Definition processConcurrently
    (items : list Item) (controller : Chan) (concurrency : nat) : Run :=
  launch concurrency concurrency (initial items controller).

(** Lines 65-70: the body of the [try] once the awaited promise has
    settled, with its [catch]. *)
Definition deliver (o : Outcome) (st : Run) : Run :=
  match o with
  | Fulfilled r =>
      if truthy r then
        match enqueue (Data (default EmptyString r)) st with
        | inl st1 =>
            match enqueue Separator st1 with
            | inl st2 => st2
            | inr err => with_promise st1 (reject err (promise st1))
            end
        | inr err => with_promise st (reject err (promise st))
        end
      else st
  | Rejected err => with_promise st (reject err (promise st))
  end.

(** Lines 71-74, the [finally] block. *)
Definition finally (concurrency : nat) (st : Run) : Run :=
  processNext concurrency
    (with_activePromises st (pred (activePromises st))).

(** What the environment can make happen between two handlers.  The
    transform belongs to the caller: its calls are recorded in [invoked]
    and the promise of each call settles when and how the environment
    decides.  [Shut] is whatever takes the stream out of the readable
    state: the client going away, the owner closing it, an error. *)
Inductive Event : Type :=
| Settle (i : nat) (o : Outcome)  (* the [i]-th suspended activation resumes *)
| Tick                            (* the interval timer fires *)
| Shut (how : Chan).              (* the stream stops being readable *)

(** One handler, run to completion; [None] when the handler cannot run in
    this state (no such activation, interval cleared, stream already
    shut). *)

Definition step (concurrency : nat) (st : Run) (ev : Event) : option Run :=
  match ev with
  | Settle i o =>
      match inflight st !! i with
      | Some _ =>
          Some (finally concurrency
                  (deliver o (with_inflight st (delete i (inflight st)))))
      | None => None
      end
  | Tick =>
      if heartbeat st then
        Some match enqueue Heartbeat st with
             | inl st1 => st1
             | inr err => with_logged st (logged st ++ [err])
             end
      else None
  | Shut how =>
      match chan st, how with
      | Readable, Closed => Some (with_chan st Closed)
      | Readable, Errored => Some (with_chan st Errored)
      | _, _ => None
      end
  end.

Fixpoint run (concurrency : nat) (st : Run) (tr : list Event) : option Run :=
  match tr with
  | [] => Some st
  | ev :: tr' =>
      match step concurrency st ev with
      | Some st' => run concurrency st' tr'
      | None => None
      end
  end.

(** Number of transform promises that settle along a trace. *)
Fixpoint settles (tr : list Event) : nat :=
  match tr with
  | [] => 0
  | Settle _ _ :: tr' => S (settles tr')
  | _ :: tr' => settles tr'
  end.

(** A trace during which the environment leaves the stream alone. *)
Fixpoint undisturbed (tr : list Event) : bool :=
  match tr with
  | [] => true
  | Shut _ :: _ => false
  | _ :: tr' => undisturbed tr'
  end.

(** A trace in which no transform promise rejects. *)
Fixpoint rejection_free (tr : list Event) : bool :=
  match tr with
  | [] => true
  | Settle _ (Rejected _) :: _ => false
  | _ :: tr' => rejection_free tr'
  end.

(** The settlements of a trace are those of the pure transform [f]:
    whenever the activation of an item resumes, it does so with [f item]. *)
Fixpoint obeys (f : Item → Outcome) (concurrency : nat) (st : Run)
    (tr : list Event) : Prop :=
  match tr with
  | [] => True
  | ev :: tr' =>
      match ev with
      | Settle i o =>
          match inflight st !! i with
          | Some item => o = f item
          | None => True
          end
      | _ => True
      end ∧
      match step concurrency st ev with
      | Some st' => obeys f concurrency st' tr'
      | None => True
      end
  end.

(** The terminal branch of [processNext], lines 50-53. *)
Definition finish (st : Run) : Run :=
  match chan st with
  | Readable =>
      mkRun (queue st) (activePromises st) (inflight st) (invoked st)
            false Readable (sink st ++ [EndOfStream])
            (resolve (promise st)) (logged st) (unhandled st)
  | c =>
      mkRun (queue st) (activePromises st) (inflight st) (invoked st)
            false c (sink st) (promise st) (logged st)
            (unhandled st ++ [TypeError])
  end.

(** The dequeuing branch, lines 60-64. *)
Definition dequeue (item : Item) (rest : list Item) (st : Run) : Run :=
  mkRun rest (S (activePromises st)) (inflight st ++ [item])
        (invoked st ++ [item]) (heartbeat st) (chan st) (sink st)
        (promise st) (logged st) (unhandled st).

Inductive processNext_spec K (st : Run) : Run → Prop :=
| pn_finish :
    queue st = [] → activePromises st = 0 →
    processNext_spec K st (finish st)
| pn_skip :
    (queue st = [] ∧ activePromises st ≠ 0) ∨
    (queue st ≠ [] ∧ K ≤ activePromises st) →
    processNext_spec K st st
| pn_dequeue item rest :
    queue st = item :: rest → activePromises st < K →
    processNext_spec K st (dequeue item rest st).

(** No [Heartbeat] follows an [EndOfStream] in a list of chunks. *)
Definition quiet_after_end (l : list Chunk) : Prop :=
  ∀ l1 l2, l = l1 ++ EndOfStream :: l2 → ¬ In Heartbeat l2.

(** What every handler of a run maintains, also in the middle of the
    launching loop. *)
Record Sound items K st : Prop := mkSound {
  sound_fifo : invoked st ++ queue st = items;
  sound_active : activePromises st = length (inflight st);
  sound_bound : activePromises st ≤ K;
  sound_timer : heartbeat st = false → queue st = [] ∧ inflight st = [];
  sound_resolved : promise st = Resolved → heartbeat st = false;
  sound_end : In EndOfStream (sink st) → heartbeat st = false;
  sound_quiet : quiet_after_end (sink st);
  sound_last :
    chan st = Readable → heartbeat st = false →
    last (sink st) = Some EndOfStream
}.

(** What holds between two handlers once the loop of line 77 is over:
    the pool is full while items wait, and the timer is armed exactly
    while the run is active. *)
Record Steady items K st : Prop := mkSteady {
  steady_sound : Sound items K st;
  steady_busy : queue st ≠ [] → activePromises st = K;
  steady_timer : queue st = [] → inflight st = [] → heartbeat st = false
}.

(** How often a call [processNext()] made in state [st] executes
    [clearInterval(heartbeat)]: line 50 is reached exactly when the test
    of line 49 holds. *)
Definition clears (st : Run) : nat :=
  if bool_decide (queue st = []) && (activePromises st =? 0) then 1 else 0.

(** Executions of line 50 during [i] passes of the loop of line 77. *)
Fixpoint launch_clears (concurrency i : nat) (st : Run) : nat :=
  match i with
  | O => 0
  | S i' =>
      clears st + launch_clears concurrency i' (processNext concurrency st)
  end.

(** Executions of line 50 during one handler: only the [processNext()] of
    a [finally] block can reach it. *)
Definition step_clears (concurrency : nat) (st : Run) (ev : Event) : nat :=
  match ev with
  | Settle i o =>
      match inflight st !! i with
      | Some _ =>
          let st1 := deliver o (with_inflight st (delete i (inflight st))) in
          clears (with_activePromises st1 (pred (activePromises st1)))
      | None => 0
      end
  | _ => 0
  end.

Fixpoint run_clears (concurrency : nat) (st : Run) (tr : list Event)
    : nat :=
  match tr with
  | [] => 0
  | ev :: tr' =>
      match step concurrency st ev with
      | Some st' =>
          step_clears concurrency st ev + run_clears concurrency st' tr'
      | None => 0
      end
  end.

(** Executions of line 50 from the call of [processConcurrently] to the
    end of a trace. *)
Definition clearInterval_calls (items : list Item) (controller : Chan)
    (concurrency : nat) (tr : list Event) : nat :=
  launch_clears concurrency concurrency (initial items controller) +
  run_clears concurrency
    (processConcurrently items controller concurrency) tr.

(** Number of terminal chunks in a sink. *)
Definition terminals (l : list Chunk) : nat :=
  length (List.filter is_end_of_stream l).

(** The sink without the keep-alive chunks. *)
Definition payload (l : list Chunk) : list Chunk :=
  List.filter (λ c, negb (is_heartbeat c)) l.


(** The chunks lines 65-68 write for a settled transform. *)
Definition chunks_of (o : Outcome) : list Chunk :=
  match o with
  | Fulfilled r =>
      if truthy r then [Data (default EmptyString r); Separator] else []
  | Rejected _ => []
  end.

(** The result chunks of a trace, in the order in which the transforms
    settle. *)
Fixpoint written (tr : list Event) : list Chunk :=
  match tr with
  | [] => []
  | Settle _ o :: tr' => chunks_of o ++ written tr'
  | _ :: tr' => written tr'
  end.

(** The result chunks of a list of items under a pure transform. *)
Definition results (f : Item → Outcome) (l : list Item) : list Chunk :=
  flat_map (λ item, chunks_of (f item)) l.

(** A sink in which every data chunk is a non-empty string immediately
    followed by its separator, and no separator stands alone. *)
Inductive Framed : list Chunk → Prop :=
| framed_nil : Framed []
| framed_heartbeat l : Framed l → Framed (Heartbeat :: l)
| framed_end l : Framed l → Framed (EndOfStream :: l)
| framed_data s l :
    s ≠ EmptyString → Framed l → Framed (Data s :: Separator :: l).

(** A run in which nothing has gone wrong: the stream is readable, nothing
    was logged or left unhandled, and the promise is pending while the
    interval is armed and resolved once it is cleared. *)
Record Clean (st : Run) : Prop := mkClean {
  clean_chan : chan st = Readable;
  clean_logged : logged st = [];
  clean_unhandled : unhandled st = [];
  clean_promise : promise st = if heartbeat st then Pending else Resolved
}.

(** Every data chunk of a list is a result of the pure transform [f] on
    one of the given items. *)
Definition data_from (f : Item → Outcome) (l : list Item)
    (chunks : list Chunk) : Prop :=
  ∀ s, In (Data s) chunks → ∃ item, In item l ∧ In (Data s) (chunks_of (f item)).

(** Where the chunks of a sink come from: the activations in flight are
    calls that were made, every call was made on an input item, and every
    data chunk is a result of [f] on an item the transform was called
    on. *)
Record Traced (f : Item → Outcome) (items : list Item) (st : Run)
    : Prop := mkTraced {
  traced_inflight : ∀ x, In x (inflight st) → In x (invoked st);
  traced_items : ∀ x, In x (invoked st ++ queue st) → In x items;
  traced_data : data_from f (invoked st) (sink st)
}.

End Run.
End Processor.

Import Processor.


(** ** The two endpoints and the session registry *)

Module Endpoint.

(** A member of the [sessions] set of line 16.  Members are objects: the
    set tells them apart by identity, not by their fields, and [ref] stands
    for that identity.  The request body is taken to be a JSON array of
    strings; bodies of another shape are outside this model. *)
Record Session : Type := mkSession {
  ref : nat;
  id : string;
  body : list string
}.

(** The set in insertion order, and the number of objects made so far. *)
Record Registry : Type := mkRegistry {
  sessions : list Session;
  allocated : nat
}.

Definition empty : Registry := mkRegistry [] 0.

(** [POST], lines 128-134; [uuid] is what [uuidv4()] returns.  The answer
    is the JSON object holding the session id. *)
Definition POST (uuid : string) (requestBody : list string)
    (reg : Registry) : string * Registry :=
  (uuid,
   mkRegistry (sessions reg ++ [mkSession (allocated reg) uuid requestBody])
              (S (allocated reg))).

(** The transform of lines 83-87: [`data: ${item}\n`] after a delay, on
    an item that is a string, for which the template literal cannot
    throw. *)
Definition processItem (item : string) : Outcome :=
  Fulfilled (Some (String.append "data: " (String.append item nl))).

Inductive Response : Type :=
| NotFound                                   (* [error(404, ...)] *)
| EventStream (session : Session) (stream : @Run string).

(** [GET], lines 96-125.  [sessionId] is [url.searchParams.get(...)],
    [null] when the parameter is missing.  Building the [ReadableStream]
    calls [start] at once, which runs [processConcurrently] with its
    default concurrency up to its first suspension. *)
Definition GET (sessionId : option string) (reg : Registry)
    : Response * Registry :=
  match find (λ s, bool_decide (Some (id s) = sessionId)) (sessions reg) with
  | None => (NotFound, reg)
  | Some session =>
      (EventStream session (processConcurrently (body session) Readable 5),
       reg)
  end.

(** The [cancel] callback of lines 113-115: [sessions.delete(session)]. *)
Definition cancel (session : Session) (reg : Registry) : Registry :=
  mkRegistry (filter (λ s, ref s ≠ ref session) (sessions reg))
             (allocated reg).

(** The rest of [start] after [await processConcurrently(...)], lines
    110-111.  It waits while the promise is pending.  On a resolved
    promise it calls [controller.close()]; on a rejected one [start]
    itself rejects, which puts a readable stream into the errored state.
    A stream that is no longer readable is left as it is. *)
Definition start_resume (stream : @Run string) : option (@Run string) :=
  match promise stream, chan stream with
  | Pending, _ => None
  | Resolved, Readable => Some (with_chan stream Closed)
  | RejectedWith _, Readable => Some (with_chan stream Errored)
  | _, _ => Some stream
  end.

(** No two members of the registry carry the same session id. *)
Definition unique_ids (reg : Registry) : Prop :=
  NoDup (map id (sessions reg)).

(** What reaches the registry: a submission, a stream request, and the
    disconnect of a client from a stream opened for [session]. *)
Inductive Request : Type :=
| Submit (uuid : string) (requestBody : list string)
| Open (sessionId : option string)
| Disconnect (session : Session).

Definition serve (r : Request) (reg : Registry) : Registry :=
  match r with
  | Submit uuid requestBody => snd (POST uuid requestBody reg)
  | Open sessionId => snd (GET sessionId reg)
  | Disconnect session => cancel session reg
  end.

Fixpoint serve_all (rs : list Request) (reg : Registry) : Registry :=
  match rs with
  | [] => reg
  | r :: rs' => serve_all rs' (serve r reg)
  end.

Fixpoint submissions (rs : list Request) : nat :=
  match rs with
  | [] => 0
  | Submit _ _ :: rs' => S (submissions rs')
  | _ :: rs' => submissions rs'
  end.

(** The members of the set are distinct objects, all made by [POST]. *)
Definition well_formed (reg : Registry) : Prop :=
  NoDup (map ref (sessions reg)) ∧
  Forall (λ s, ref s < allocated reg) (sessions reg).

End Endpoint.

(** ** The client subscriber *)

Module Client.
Section StreamData.

Context {T : Type}.

(** [parsedData.key]. *)
Variable key : T → string.

(** The caller's parser, [JSON.parse] by default; it returns a record or
    throws. *)
Variable parseData : string → T + Err.

(** The [Map] held by the writable store, as the finite map that [get],
    [has] and the set of its keys show, and how often [store.update] has
    run.  The order in which a [Map] iterates over its entries is not
    modelled. *)
Record Store : Type := mkStore {
  value : gmap string T;
  updates : nat
}.

(** The [onmessage] handler, lines 98-101 of the client: the payload is
    parsed first; [store.update] with [currentData.set(key, parsedData)]
    runs only when the parser has returned.  The second component is the
    exception that leaves the handler, if any. *)
Definition onmessage (data : string) (store : Store) : Store * option Err :=
  match parseData data with
  | inl parsedData =>
      (mkStore (<[key parsedData := parsedData]> (value store))
               (S (updates store)),
       None)
  | inr err => (store, Some err)
  end.

(** The handler run on each message of a sequence, oldest first. *)
Fixpoint receive (msgs : list string) (store : Store) : Store :=
  match msgs with
  | [] => store
  | data :: msgs' => receive msgs' (fst (onmessage data store))
  end.

(** The records the parser returns on a sequence of messages. *)
Fixpoint parsed (msgs : list string) : list T :=
  match msgs with
  | [] => []
  | data :: msgs' =>
      match parseData data with
      | inl r => r :: parsed msgs'
      | inr _ => parsed msgs'
      end
  end.

(** The most recent record of a list that carries key [k]. *)
Fixpoint latest (k : string) (records : list T) : option T :=
  match records with
  | [] => None
  | r :: records' =>
      match latest k records' with
      | Some r' => Some r'
      | None => if bool_decide (key r = k) then Some r else None
      end
  end.

(** [EventSource.CLOSED] (or the polyfill's), the constant the error
    handler compares [event.eventPhase] with. *)
Variable CLOSED : nat.

(** The store together with the event source: whether [close()] has been
    called on it, and what the handlers printed. *)
Record Connection : Type := mkConnection {
  store : Store;
  connected : bool;
  console : list string
}.

Inductive Incoming : Type :=
| Message (data : string)             (* an unnamed event: [onmessage] *)
| EndOfStreamEvent                    (* an event named [end-of-stream] *)
| ErrorEvent (eventPhase : nat).      (* [onerror] *)

(** The three handlers of lines 98-114. *)
Definition handle (ev : Incoming) (conn : Connection) : Connection :=
  match ev with
  | Message data =>
      mkConnection (fst (onmessage data (store conn)))
                   (connected conn) (console conn)
  | EndOfStreamEvent =>
      mkConnection (store conn) false
        (console conn ++ ["End of stream received, closing connection..."])
  | ErrorEvent eventPhase =>
      if eventPhase =? CLOSED then
        mkConnection (store conn) false
                     (console conn ++ ["Connection was closed!"])
      else conn
  end.

(** Every event the event source delivers runs its handler; none of the
    handlers looks at whether [close()] was called.  Whether events still
    arrive after [close()] is up to the event source: the browser's
    delivers none, the polyfill may still deliver what it had received. *)
Definition dispatch (ev : Incoming) (conn : Connection) : Connection :=
  handle ev conn.

Fixpoint dispatch_all (evs : list Incoming) (conn : Connection)
    : Connection :=
  match evs with
  | [] => conn
  | ev :: evs' => dispatch_all evs' (dispatch ev conn)
  end.

(** The payloads of the message events of a list. *)
Fixpoint messages (evs : list Incoming) : list string :=
  match evs with
  | [] => []
  | Message data :: evs' => data :: messages evs'
  | _ :: evs' => messages evs'
  end.

End StreamData.

(** The records of the client scenario: a key and a number. *)
Record Keyed : Type := mkKeyed {
  keyed_key : string;
  keyed_v : Z
}.

Definition quote : string := String "034"%char EmptyString.

(** The text [{"key":"k","v":v}]. *)
Definition payload_text (k v : string) : string :=
  String.concat EmptyString
    ["{"; quote; "key"; quote; ":"; quote; k; quote; ",";
     quote; "v"; quote; ":"; v; "}"].

(** A parser that knows the three payloads of the scenario and throws on
    everything else. *)
Definition scenario_parser (data : string) : Keyed + Err :=
  if String.eqb data (payload_text "x" "1") then inl (mkKeyed "x" 1)
  else if String.eqb data (payload_text "x" "2") then inl (mkKeyed "x" 2)
  else if String.eqb data (payload_text "y" "3") then inl (mkKeyed "y" 3)
  else inr (Thrown "SyntaxError").

End Client.

(** ** Facts about single handlers *)

Section Handlers.

Context {Item : Type}.
Implicit Types (st : @Run Item) (items : list Item) (K : nat).

Lemma processNext_cases K st : processNext_spec K st (processNext K st).
Proof.
  destruct (queue st) as [|item rest] eqn:Hq.
  - destruct (activePromises st) as [|a] eqn:Ha.
    + assert (processNext K st = finish st) as ->.
      { unfold processNext. rewrite Hq, Ha. simpl.
        unfold finish, enqueue, with_promise, with_sink, with_unhandled,
          with_heartbeat. simpl.
        by destruct (chan st). }
      by constructor.
    + assert (processNext K st = st) as ->.
      { unfold processNext. rewrite Hq, Ha. done. }
      apply pn_skip. left. split; [done | lia].
  - destruct (decide (K ≤ activePromises st)) as [Hk | Hk].
    + assert (processNext K st = st) as ->.
      { unfold processNext. rewrite Hq. simpl.
        apply Nat.leb_le in Hk. by rewrite Hk. }
      apply pn_skip. right. split; [congruence | done].
    + assert (processNext K st = dequeue item rest st) as ->.
      { unfold processNext. rewrite Hq. simpl.
        apply Nat.leb_nle in Hk. by rewrite Hk. }
      apply pn_dequeue; [done | lia].
Qed.

Lemma quiet_nil : quiet_after_end [].
Proof. intros [|? ?] l2 H; discriminate H. Qed.

Lemma snoc_split (l l1 l2 : list Chunk) (c d : Chunk) :
  l ++ [c] = l1 ++ d :: l2 →
  (l2 = [] ∧ c = d ∧ l = l1) ∨ (∃ l2', l2 = l2' ++ [c] ∧ l = l1 ++ d :: l2').
Proof.
  destruct l2 as [|x l2' _] using rev_ind.
  - intros H. apply app_inj_tail in H as [-> ->]. by left.
  - intros H. right. exists l2'.
    change (l ++ [c] = l1 ++ (d :: l2') ++ [x]) in H.
    rewrite app_assoc in H. apply app_inj_tail in H as [-> ->]. done.
Qed.

Lemma quiet_snoc l c :
  quiet_after_end l → c ≠ Heartbeat → quiet_after_end (l ++ [c]).
Proof.
  intros Hq Hc l1 l2 H.
  apply snoc_split in H as [(-> & _ & _) | (l2' & -> & ->)].
  - simpl. tauto.
  - rewrite in_app_iff. simpl. intros [Hin | [Heq | []]].
    + by apply (Hq l1 l2').
    + by apply Hc.
Qed.

Lemma quiet_snoc_heartbeat l :
  ¬ In EndOfStream l → quiet_after_end (l ++ [Heartbeat]).
Proof.
  intros Hno l1 l2 H.
  apply snoc_split in H as [(_ & Heq & _) | (l2' & _ & ->)].
  - discriminate Heq.
  - exfalso. apply Hno. rewrite in_app_iff. right. by left.
Qed.

Lemma initial_sound items K c : Sound items K (initial items c).
Proof.
  split; simpl; try done; try lia.
  apply quiet_nil.
Qed.

Lemma processNext_sound items K st :
  Sound items K st → Sound items K (processNext K st).
Proof.
  intros [Hf Ha Hb Ht Hr He Hq Hl].
  destruct (processNext_cases K st) as [Hq0 Ha0 | _ | item rest Hq0 Ha0].
  - assert (inflight st = []) as Hin.
    { apply length_zero_iff_nil. lia. }
    unfold finish. destruct (chan st); split; simpl; try done.
    + apply quiet_snoc; done.
    + intros _ _. apply last_snoc.
  - by split.
  - unfold dequeue. split; simpl; try done.
    + rewrite <- Hf, Hq0, <- app_assoc. done.
    + rewrite length_app. simpl. lia.
    + intros H. destruct (Ht H) as [Hq' _]. congruence.
Qed.

Lemma processNext_fill items K n st :
  Sound items K st → n < K →
  (queue st ≠ [] → n ≤ activePromises st) →
  queue (processNext K st) ≠ [] → S n ≤ activePromises (processNext K st).
Proof.
  intros HS Hn Hbusy.
  destruct (processNext_cases K st) as [Hq0 Ha0 | Hskip | item rest Hq0 Ha0].
  - unfold finish. destruct (chan st); simpl; congruence.
  - intros Hq. destruct Hskip as [[? _] | [_ ?]]; [done | lia].
  - simpl. intros _. assert (n ≤ activePromises st); [|lia].
    apply Hbusy. congruence.
Qed.

Lemma processNext_timer K st :
  activePromises st = length (inflight st) →
  queue (processNext K st) = [] → inflight (processNext K st) = [] →
  heartbeat (processNext K st) = false.
Proof.
  intros Ha.
  destruct (processNext_cases K st) as [Hq0 Ha0 | Hskip | item rest Hq0 Ha0].
  - unfold finish. by destruct (chan st).
  - intros Hq Hi. rewrite Hi in Ha. simpl in Ha.
    destruct Hskip as [[_ ?] | [? _]]; done.
  - simpl. intros _ Hi. by destruct (inflight st).
Qed.

Lemma launch_sound items K i st :
  Sound items K st → Sound items K (launch K i st).
Proof.
  revert st. induction i as [|i IH]; intros st HS; simpl; [done|].
  apply IH. by apply processNext_sound.
Qed.

Lemma launch_fill items K i n st :
  Sound items K st → n + i = K →
  (queue st ≠ [] → n ≤ activePromises st) →
  queue (launch K i st) ≠ [] → K ≤ activePromises (launch K i st).
Proof.
  revert n st. induction i as [|i IH]; intros n st HS Hn Hbusy; simpl.
  - intros Hq. specialize (Hbusy Hq). lia.
  - apply (IH (S n)); [by apply processNext_sound | lia |].
    apply (processNext_fill items); [done | lia | done].
Qed.

Lemma launch_last K i st :
  launch K (S i) st = processNext K (launch K i st).
Proof.
  revert st. induction i as [|i IH]; intros st; [done|].
  change (launch K (S (S i)) st) with (launch K (S i) (processNext K st)).
  by rewrite IH.
Qed.

(** The state in which [processConcurrently] hands back its promise. *)
Lemma processConcurrently_steady items c K :
  0 < K → Steady items K (processConcurrently items c K).
Proof.
  intros HK. unfold processConcurrently.
  pose proof (initial_sound items K c) as H0. split.
  - by apply launch_sound.
  - intros Hq. apply Nat.le_antisymm.
    + by apply (launch_sound items K K _ H0).
    + apply (launch_fill items K K 0); [done | lia | simpl; lia | done].
  - destruct K as [|k]; [lia|]. rewrite launch_last.
    apply processNext_timer.
    by apply (launch_sound items (S k) k _ H0).
Qed.

(** [deliver] touches the sink and the promise only. *)
Lemma deliver_frame o st :
  queue (deliver o st) = queue st ∧
  activePromises (deliver o st) = activePromises st ∧
  inflight (deliver o st) = inflight st ∧
  invoked (deliver o st) = invoked st ∧
  heartbeat (deliver o st) = heartbeat st ∧
  chan (deliver o st) = chan st ∧
  logged (deliver o st) = logged st ∧
  unhandled (deliver o st) = unhandled st.
Proof.
  unfold deliver, enqueue.
  destruct o as [r|e]; [destruct (truthy r); [destruct (chan st) eqn:Hc|]|];
    simpl; rewrite ?Hc; simpl; done.
Qed.

(** The sink only grows under [deliver], by result chunks. *)
Lemma deliver_sink o st :
  ∃ added, sink (deliver o st) = sink st ++ added ∧
           Forall (λ c, c ≠ Heartbeat ∧ c ≠ EndOfStream) added.
Proof.
  unfold deliver, enqueue.
  destruct o as [r|e]; [destruct (truthy r); [destruct (chan st) eqn:Hc|]|];
    simpl; rewrite ?Hc; simpl;
    try (exists []; rewrite app_nil_r; split; [done | constructor]).
  exists [Data (default EmptyString r); Separator].
  rewrite <- app_assoc. split; [done|].
  repeat constructor; discriminate.
Qed.

Lemma deliver_promise o st :
  promise (deliver o st) = Resolved → promise st = Resolved.
Proof.
  unfold deliver, enqueue.
  destruct o as [r|e]; [destruct (truthy r); [destruct (chan st) eqn:Hc|]|];
    simpl; rewrite ?Hc; simpl; try done;
    destruct (promise st); simpl; done.
Qed.

Lemma quiet_app l added :
  quiet_after_end l → Forall (λ c, c ≠ Heartbeat ∧ c ≠ EndOfStream) added →
  quiet_after_end (l ++ added).
Proof.
  intros Hq. induction added as [|c added IH] using rev_ind; intros Hall.
  - by rewrite app_nil_r.
  - apply Forall_app in Hall as [Hall Hc]. rewrite app_assoc.
    apply quiet_snoc; [by apply IH|].
    apply Forall_inv in Hc. tauto.
Qed.

Lemma in_end_app l added :
  Forall (λ c, c ≠ Heartbeat ∧ c ≠ EndOfStream) added →
  In EndOfStream (l ++ added) → In EndOfStream l.
Proof.
  intros Hall. rewrite in_app_iff. intros [H | H]; [done|].
  rewrite Forall_forall in Hall.
  apply list_elem_of_In, Hall in H. tauto.
Qed.

(** Every enabled handler keeps the run steady. *)
Lemma step_steady items K st ev st' :
  Steady items K st → step K st ev = Some st' → Steady items K st'.
Proof.
  intros [[Hf Ha Hb Ht Hr He Hq Hl] Hbusy Hon] Hstep.
  destruct ev as [i o | | how]; simpl in Hstep.
  - destruct (inflight st !! i) as [item|] eqn:Hi; [|done].
    injection Hstep as <-.
    assert (length (delete i (inflight st)) = length (inflight st) - 1)
      as Hlen by (apply length_delete; eauto).
    assert (0 < length (inflight st)) as Hpos.
    { apply lookup_lt_Some in Hi. lia. }
    assert (heartbeat st = true) as Hhb.
    { destruct (heartbeat st); [done|].
      destruct Ht as [_ Hnil]; [done|]. rewrite Hnil in Hpos.
      simpl in Hpos. lia. }
    set (st0 := with_inflight st (delete i (inflight st))).
    destruct (deliver_frame o st0)
      as (Dq & Da & Di & Dv & Dh & Dc & Dl & Du).
    destruct (deliver_sink o st0) as (added & Dsink & Dadded).
    pose proof (deliver_promise o st0) as Dp.
    set (mid := with_activePromises (deliver o st0)
                  (pred (activePromises (deliver o st0)))).
    assert (Sound items K mid) as Hmid.
    { split; unfold mid; simpl.
      - by rewrite Dv, Dq.
      - rewrite Da, Di. simpl. lia.
      - rewrite Da. simpl. lia.
      - rewrite Dh. simpl. congruence.
      - intros Hp. apply Dp in Hp. simpl in Hp. rewrite Dh. simpl. auto.
      - rewrite Dsink, Dh. simpl. intros Hin. apply He.
        by apply (in_end_app _ added).
      - rewrite Dsink. simpl. by apply quiet_app.
      - rewrite Dh. simpl. congruence. }
    unfold finally. fold mid. split.
    + by apply processNext_sound.
    + intros Hq'. apply Nat.le_antisymm.
      * by apply (processNext_sound items K mid Hmid).
      * assert (S (pred K) ≤ activePromises (processNext K mid)); [|lia].
        apply (processNext_fill items K (pred K) mid); [done | lia | | done].
        unfold mid. simpl. rewrite Dq, Da. simpl. intros Hq0.
        rewrite (Hbusy Hq0). done.
    + apply processNext_timer. by destruct Hmid.
  - destruct (heartbeat st) eqn:Hhb; [|done].
    injection Hstep as <-. unfold enqueue.
    destruct (chan st); (split; [split|..]); simpl; try done;
      try (rewrite Hhb; done).
    + rewrite Hhb. intros Hin. apply in_app_iff in Hin as [Hin | Hin].
      * apply He in Hin. congruence.
      * destruct Hin as [Hin | []]. discriminate Hin.
    + apply quiet_snoc_heartbeat. intros Hin. apply He in Hin. congruence.
  - destruct (chan st), how; try done; injection Hstep as <-;
      (split; [split|..]); simpl; done.
Qed.

Lemma run_steady items K st tr st' :
  Steady items K st → run K st tr = Some st' → Steady items K st'.
Proof.
  revert st. induction tr as [|ev tr IH]; intros st HS Hrun; simpl in Hrun.
  - by injection Hrun as <-.
  - destruct (step K st ev) as [st1|] eqn:Hstep; [|done].
    apply (IH st1); [|done]. by apply (step_steady items K st ev).
Qed.

(** Calls of the transform and suspended activations grow together. *)
Lemma processNext_count K st :
  length (invoked (processNext K st)) + length (inflight st) =
  length (invoked st) + length (inflight (processNext K st)).
Proof.
  destruct (processNext_cases K st) as [_ _ | _ | item rest _ _].
  - unfold finish. by destruct (chan st).
  - done.
  - simpl. rewrite !length_app. simpl. lia.
Qed.

Lemma launch_count K i st :
  length (invoked (launch K i st)) + length (inflight st) =
  length (invoked st) + length (inflight (launch K i st)).
Proof.
  revert st. induction i as [|i IH]; intros st; simpl; [done|].
  pose proof (IH (processNext K st)). pose proof (processNext_count K st). lia.
Qed.

Lemma step_count K st ev st' :
  step K st ev = Some st' →
  length (invoked st') + length (inflight st) =
  length (invoked st) + length (inflight st') + settles [ev].
Proof.
  intros Hstep. destruct ev as [i o | | how]; simpl in Hstep.
  - destruct (inflight st !! i) as [item|] eqn:Hi; [|done].
    injection Hstep as <-.
    assert (length (delete i (inflight st)) = length (inflight st) - 1)
      as Hlen by (apply length_delete; eauto).
    apply lookup_lt_Some in Hi.
    set (st0 := with_inflight st (delete i (inflight st))).
    destruct (deliver_frame o st0) as (_ & _ & Di & Dv & _).
    unfold finally.
    match goal with |- context [processNext K ?m] =>
      pose proof (processNext_count K m) as Hc end.
    simpl in Hc. rewrite Di, Dv in Hc. simpl in Hc. simpl. lia.
  - destruct (heartbeat st); [|done]. injection Hstep as <-.
    unfold enqueue. destruct (chan st); simpl; lia.
  - destruct (chan st), how; try done; injection Hstep as <-; simpl; lia.
Qed.

Lemma run_count K st tr st' :
  run K st tr = Some st' →
  length (invoked st') + length (inflight st) =
  length (invoked st) + length (inflight st') + settles tr.
Proof.
  revert st. induction tr as [|ev tr IH]; intros st Hrun; simpl in Hrun.
  - injection Hrun as <-. simpl. lia.
  - destruct (step K st ev) as [st1|] eqn:Hstep; [|done].
    apply IH in Hrun. apply step_count in Hstep.
    destruct ev; simpl in *; lia.
Qed.

(** A suspended activation can always resume, whatever the outcome. *)
Lemma settle_enabled K st i o :
  i < length (inflight st) → is_Some (step K st (Settle i o)).
Proof.
  intros Hi. apply lookup_lt_is_Some_2 in Hi as [item Hitem].
  simpl. rewrite Hitem. eauto.
Qed.

(** From a steady state, letting the oldest suspended activation resume
    again and again drains the queue: the run needs exactly as many
    settlements as items are waiting or in flight. *)
Lemma drain items K o n st :
  Steady items K st → 0 < K →
  length (queue st) + length (inflight st) = n →
  ∃ st', run K st (replicate n (Settle 0 o)) = Some st' ∧
         queue st' = [] ∧ inflight st' = [].
Proof.
  revert st. induction n as [|n IH]; intros st HS HK Hn.
  - exists st. simpl. split; [done|].
    split; apply length_zero_iff_nil; lia.
  - assert (0 < length (inflight st)) as Hpos.
    { destruct (queue st) as [|x q] eqn:Hq; [simpl in Hn; lia|].
      destruct HS as [[_ Ha _ _ _ _ _ _] Hbusy _].
      rewrite <- Ha, Hbusy; [done | by rewrite Hq]. }
    destruct (settle_enabled K st 0 o Hpos) as [st1 Hstep].
    pose proof (step_steady items K st _ st1 HS Hstep) as HS1.
    pose proof (step_count K st _ st1 Hstep) as Hc. simpl in Hc.
    destruct HS as [[Hf _ _ _ _ _ _ _] _ _].
    pose proof HS1 as [[Hf1 _ _ _ _ _ _ _] _ _].
    assert (length (invoked st) + length (queue st) =
            length (invoked st1) + length (queue st1)) as Hlen.
    { rewrite <- !length_app. by rewrite Hf, Hf1. }
    destruct (IH st1 HS1 HK) as (st' & Hrun & Hq' & Hi'); [lia|].
    exists st'. cbn [replicate run]. rewrite Hstep. done.
Qed.

(** Nothing arms the interval again. *)
Lemma processNext_heartbeat_off K st :
  heartbeat st = false → heartbeat (processNext K st) = false.
Proof.
  destruct (processNext_cases K st) as [_ _ | _ | item rest _ _]; try done.
  unfold finish. by destruct (chan st).
Qed.

Lemma step_heartbeat_off K st ev st' :
  step K st ev = Some st' → heartbeat st = false → heartbeat st' = false.
Proof.
  intros Hstep Hoff. destruct ev as [i o | | how]; simpl in Hstep.
  - destruct (inflight st !! i); [|done]. injection Hstep as <-.
    apply processNext_heartbeat_off. simpl.
    by destruct (deliver_frame o (with_inflight st (delete i (inflight st))))
      as (_ & _ & _ & _ & -> & _).
  - by rewrite Hoff in Hstep.
  - destruct (chan st), how; try done; by injection Hstep as <-.
Qed.

(** [clears] tells which branch [processNext] takes. *)
Lemma clears_spec K st :
  (clears st = 1 ∧ processNext K st = finish st) ∨
  (clears st = 0 ∧ heartbeat (processNext K st) = heartbeat st).
Proof.
  unfold clears.
  destruct (processNext_cases K st) as [Hq Ha | Hskip | item rest Hq Ha].
  - left. rewrite Hq, Ha. done.
  - right. split; [|done].
    destruct Hskip as [[Hq Ha] | [Hq _]].
    + rewrite Hq. simpl. by destruct (activePromises st).
    + by destruct (queue st).
  - right. split; [|done]. by rewrite Hq.
Qed.

Lemma finish_heartbeat st : heartbeat (finish st) = false.
Proof. unfold finish. by destruct (chan st). Qed.

(** While the interval is armed after the loop, no pass has cleared it. *)
Lemma launch_clears_armed K i st :
  heartbeat (launch K i st) = true → launch_clears K i st = 0.
Proof.
  revert st. induction i as [|i IH]; intros st Hhb; simpl in *; [done|].
  rewrite (IH _ Hhb).
  destruct (clears_spec K st) as [[_ Hfin] | [-> _]]; [|done].
  exfalso. rewrite Hfin in Hhb. clear IH.
  assert (∀ r : @Run Item,
            heartbeat r = false → heartbeat (launch K i r) = false)
    as Hoff.
  { clear. induction i as [|i IH]; intros r Hr; simpl; [done|].
    by apply IH, processNext_heartbeat_off. }
  rewrite Hoff in Hhb; [done | apply finish_heartbeat].
Qed.



(** In a steady run a handler executes line 50 exactly when it takes the
    interval from armed to cleared. *)
Lemma step_clears_once items K st ev st' :
  Steady items K st → step K st ev = Some st' →
  (if heartbeat st then 0 else 1) + step_clears K st ev =
  (if heartbeat st' then 0 else 1).
Proof.
  intros [[_ _ _ Ht _ _ _ _] _ _] Hstep.
  destruct ev as [i o | | how]; simpl in *.
  - destruct (inflight st !! i) as [item|] eqn:Hi; [|done].
    injection Hstep as <-.
    assert (heartbeat st = true) as Hhb.
    { destruct (heartbeat st); [done|].
      destruct Ht as [_ Hnil]; [done|]. by rewrite Hnil in Hi. }
    set (st0 := with_inflight st (delete i (inflight st))).
    destruct (deliver_frame o st0) as (_ & _ & _ & _ & Dh & _).
    unfold finally. rewrite Hhb.
    match goal with |- context [processNext K ?m] =>
      destruct (clears_spec K m) as [[-> ->] | [-> ->]] end.
    + by rewrite finish_heartbeat.
    + simpl. fold st0. rewrite Dh. simpl. by rewrite Hhb.
  - destruct (heartbeat st) eqn:Hhb; [|done]. injection Hstep as <-.
    unfold enqueue. destruct (chan st); simpl; by rewrite Hhb.
  - destruct (chan st), how; try done; injection Hstep as <-; simpl; lia.
Qed.

Lemma run_clears_once items K st tr st' :
  Steady items K st → run K st tr = Some st' →
  (if heartbeat st then 0 else 1) + run_clears K st tr =
  (if heartbeat st' then 0 else 1).
Proof.
  revert st. induction tr as [|ev tr IH]; intros st HS Hrun; simpl in *.
  - injection Hrun as <-. lia.
  - destruct (step K st ev) as [st1|] eqn:Hstep; [|done].
    pose proof (step_steady items K st ev st1 HS Hstep) as HS1.
    rewrite <- (IH st1 HS1 Hrun).
    pose proof (step_clears_once items K st ev st1 HS Hstep). lia.
Qed.

(** A settled promise stays as it is. *)
Lemma processNext_rejected K st err :
  promise st = RejectedWith err → promise (processNext K st) = RejectedWith err.
Proof.
  destruct (processNext_cases K st) as [_ _ | _ | item rest _ _]; try done.
  unfold finish. destruct (chan st); simpl; by intros ->.
Qed.

Lemma deliver_rejected o st err :
  promise st = RejectedWith err → promise (deliver o st) = RejectedWith err.
Proof.
  intros Hp. unfold deliver, enqueue.
  destruct o as [r|e]; [destruct (truthy r); [destruct (chan st) eqn:Hc|]|];
    simpl; rewrite ?Hc; simpl; by rewrite ?Hp.
Qed.

Lemma step_rejected K st ev st' err :
  step K st ev = Some st' →
  promise st = RejectedWith err → promise st' = RejectedWith err.
Proof.
  intros Hstep Hp. destruct ev as [i o | | how]; simpl in Hstep.
  - destruct (inflight st !! i); [|done]. injection Hstep as <-.
    apply processNext_rejected. simpl. by apply deliver_rejected.
  - destruct (heartbeat st); [|done]. injection Hstep as <-.
    unfold enqueue. by destruct (chan st).
  - destruct (chan st), how; try done; by injection Hstep as <-.
Qed.

Lemma run_rejected K st tr st' err :
  run K st tr = Some st' →
  promise st = RejectedWith err → promise st' = RejectedWith err.
Proof.
  revert st. induction tr as [|ev tr IH]; intros st Hrun Hp; simpl in Hrun.
  - by injection Hrun as <-.
  - destruct (step K st ev) as [st1|] eqn:Hstep; [|done].
    apply (IH st1); [done|]. by apply (step_rejected K st ev).
Qed.



(** [processNext] writes at most the terminal chunk. *)
Lemma processNext_sink K st :
  sink (processNext K st) = sink st ∨
  sink (processNext K st) = sink st ++ [EndOfStream].
Proof.
  destruct (processNext_cases K st) as [_ _ | _ | item rest _ _];
    try (by left).
  unfold finish. destruct (chan st); simpl; auto.
Qed.

Lemma deliver_written st s :
  chan st = Readable → s ≠ EmptyString →
  deliver (Fulfilled (Some s)) st =
  with_sink st (sink st ++ [Data s; Separator]).
Proof.
  intros Hc Hs.
  assert (truthy (Some s) = true) as Ht.
  { simpl. apply negb_true_iff. by apply String.eqb_neq. }
  unfold deliver. rewrite Ht. unfold enqueue. rewrite Hc. simpl.
  rewrite Hc. unfold with_sink. simpl. by rewrite <- app_assoc.
Qed.

(** A truthy result that arrives while the stream is readable is written,
    followed by the separator, whatever the state of the promise. *)
Lemma step_result_written K st i item s :
  inflight st !! i = Some item → s ≠ EmptyString → chan st = Readable →
  ∃ st' tail,
    step K st (Settle i (Fulfilled (Some s))) = Some st' ∧
    sink st' = sink st ++ Data s :: Separator :: tail.
Proof.
  intros Hi Hs Hc. cbn [step]. rewrite Hi.
  unfold finally. rewrite deliver_written by done.
  match goal with |- context [processNext K ?m] =>
    exists (processNext K m);
    destruct (processNext_sink K m) as [Hk | Hk] end.
  - exists []. split; [done|]. rewrite Hk. simpl. done.
  - exists [EndOfStream]. split; [done|]. rewrite Hk. simpl.
    by rewrite <- app_assoc.
Qed.

(** When an activation resumes while items wait, the next item is
    dequeued and handed to the transform in the same handler. *)
Lemma step_settle_dequeues items K st i o item rest :
  Steady items K st → i < length (inflight st) → queue st = item :: rest →
  ∃ st', step K st (Settle i o) = Some st' ∧
         invoked st' = invoked st ++ [item] ∧ queue st' = rest.
Proof.
  intros [[_ Ha _ _ _ _ _ _] Hbusy _] Hi Hq.
  apply lookup_lt_is_Some_2 in Hi as [x Hx].
  simpl. rewrite Hx. eexists. split; [done|].
  set (st0 := with_inflight st (delete i (inflight st))).
  destruct (deliver_frame o st0) as (Dq & Da & Di & Dv & _).
  assert (activePromises st = K) as HK by (apply Hbusy; by rewrite Hq).
  assert (0 < K) as Hpos.
  { apply lookup_lt_Some in Hx. lia. }
  unfold finally.
  match goal with |- context [processNext K ?m] =>
    destruct (processNext_cases K m) as [Hq0 _ | Hskip | y q Hq0 _];
    simpl in * end.
  - rewrite Dq in Hq0. simpl in Hq0. congruence.
  - rewrite Dq, Da in Hskip. simpl in Hskip.
    destruct Hskip as [[? _] | [_ ?]]; [congruence | lia].
  - rewrite Dq in Hq0. simpl in Hq0. rewrite Dv. simpl.
    rewrite Hq in Hq0. by injection Hq0 as <- <-.
Qed.

(** With nothing to process every pass of the loop takes the terminal
    branch. *)
Lemma launch_empty K i st :
  queue st = [] → activePromises st = 0 → chan st = Readable →
  sink (launch K i st) = sink st ++ replicate i EndOfStream ∧
  promise (launch K (S i) st) = resolve (promise st).
Proof.
  revert st. induction i as [|i IH]; intros st Hq Ha Hc.
  - split; [simpl; by rewrite app_nil_r|]. simpl.
    destruct (processNext_cases K st) as [_ _ | Hskip | item rest Hq0 _].
    + unfold finish. by rewrite Hc.
    + destruct Hskip as [[_ ?] | [? _]]; done.
    + congruence.
  - assert (processNext K st = finish st) as Hpn.
    { destruct (processNext_cases K st) as [_ _ | Hskip | item rest Hq0 _].
      - done.
      - destruct Hskip as [[_ ?] | [? _]]; done.
      - congruence. }
    change (launch K (S i) st) with (launch K i (processNext K st)).
    change (launch K (S (S i)) st) with (launch K (S i) (processNext K st)).
    rewrite Hpn. unfold finish. rewrite Hc.
    match goal with |- context [launch K i ?m] =>
      destruct (IH m) as [Hs Hp]; [done..|] end.
    rewrite Hs, Hp. simpl. split.
    + by rewrite <- app_assoc.
    + by destruct (promise st).
Qed.

Lemma terminals_replicate n : terminals (replicate n EndOfStream) = n.
Proof.
  unfold terminals. induction n as [|n IH]; [done|].
  simpl. by rewrite IH.
Qed.

(** On a readable stream [deliver] writes the chunks of the outcome. *)
Lemma deliver_readable o st :
  chan st = Readable → sink (deliver o st) = sink st ++ chunks_of o.
Proof.
  intros Hc. unfold deliver, chunks_of, enqueue.
  destruct o as [r|e]; [destruct (truthy r)|]; simpl;
    rewrite ?Hc, ?app_nil_r; simpl; rewrite ?Hc; simpl;
    by rewrite <- ?app_assoc.
Qed.

Lemma payload_app l1 l2 : payload (l1 ++ l2) = payload l1 ++ payload l2.
Proof. apply List.filter_app. Qed.

Lemma payload_chunks_of o : payload (chunks_of o) = chunks_of o.
Proof.
  unfold chunks_of. destruct o as [r|e]; [destruct (truthy r)|]; done.
Qed.

(** Once the interval is cleared no handler is left, unless the
    environment shuts the stream. *)
Lemma idle_run items K st tr st' :
  Steady items K st → heartbeat st = false → undisturbed tr = true →
  run K st tr = Some st' → tr = [] ∧ st' = st.
Proof.
  intros [[_ _ _ Ht _ _ _ _] _ _] Hoff Hund Hrun.
  destruct (Ht Hoff) as [_ Hi].
  destruct tr as [|[i o | | how] tr]; simpl in *.
  - by injection Hrun as <-.
  - by rewrite Hi in Hrun.
  - by rewrite Hoff in Hrun.
  - done.
Qed.

(** One handler on a readable stream: the payload of the sink grows by
    the chunks of the settled transform, then by the terminal chunk if the
    handler clears the interval. *)
Lemma step_payload items K st ev st' :
  Steady items K st → chan st = Readable → undisturbed [ev] = true →
  step K st ev = Some st' →
  chan st' = Readable ∧
  payload (sink st') =
    payload (sink st) ++ written [ev] ++
    (if heartbeat st && negb (heartbeat st') then [EndOfStream] else []).
Proof.
  intros [[_ Ha _ Ht _ _ _ _] _ _] Hc Hund Hstep.
  destruct ev as [i o | | how]; simpl in Hstep; [| |done].
  - destruct (inflight st !! i) as [item|] eqn:Hi; [|done].
    injection Hstep as <-.
    assert (heartbeat st = true) as Hhb.
    { destruct (heartbeat st); [done|].
      destruct Ht as [_ Hnil]; [done|]. by rewrite Hnil in Hi. }
    set (st0 := with_inflight st (delete i (inflight st))).
    destruct (deliver_frame o st0) as (_ & _ & _ & _ & Dh & Dc & _).
    pose proof (deliver_readable o st0 Hc) as Ds.
    unfold finally. rewrite Hhb. cbn [written andb]. rewrite app_nil_r.
    match goal with |- context [processNext K ?m] =>
      destruct (processNext_cases K m) as [_ _ | _ | y q _ _] end.
    + unfold finish. simpl. rewrite Dc. simpl. rewrite Hc. simpl.
      split; [done|]. rewrite Ds. simpl.
      by rewrite !payload_app, payload_chunks_of, <- app_assoc.
    + simpl. rewrite Dc, Dh, Ds. simpl. rewrite Hhb, Hc. simpl.
      by rewrite payload_app, payload_chunks_of, app_nil_r.
    + simpl. rewrite Dc, Dh, Ds. simpl. rewrite Hhb, Hc. simpl.
      by rewrite payload_app, payload_chunks_of, app_nil_r.
  - destruct (heartbeat st) eqn:Hhb; [|done]. injection Hstep as <-.
    unfold enqueue. rewrite Hc. simpl. rewrite Hhb. simpl.
    split; [done|]. rewrite payload_app. done.
Qed.

(** The payload of the sink is the results in completion order, followed
    by one terminal chunk as soon as the run is over. *)
Lemma run_payload items K st tr st' :
  Steady items K st → chan st = Readable → undisturbed tr = true →
  run K st tr = Some st' →
  chan st' = Readable ∧
  payload (sink st') =
    payload (sink st) ++ written tr ++
    (if heartbeat st && negb (heartbeat st') then [EndOfStream] else []).
Proof.
  revert st. induction tr as [|ev tr IH]; intros st HS Hc Hund Hrun.
  - simpl in Hrun. injection Hrun as <-. split; [done|].
    destruct (heartbeat st); simpl; by rewrite app_nil_r.
  - simpl in Hrun. destruct (step K st ev) as [st1|] eqn:Hstep; [|done].
    assert (undisturbed [ev] = true ∧ undisturbed tr = true) as [Hu1 Hu2].
    { destruct ev; simpl in *; done. }
    pose proof (step_steady items K st ev st1 HS Hstep) as HS1.
    destruct (step_payload items K st ev st1 HS Hc Hu1 Hstep) as [Hc1 Hp1].
    assert (written (ev :: tr) = written [ev] ++ written tr) as ->.
    { destruct ev; simpl; by rewrite ?app_nil_r. }
    destruct (heartbeat st1) eqn:Hhb1.
    + destruct (IH st1 HS1 Hc1 Hu2 Hrun) as [Hc' Hp']. split; [done|].
      rewrite Hp', Hp1, Hhb1.
      destruct (heartbeat st) eqn:Hhb; simpl; [by rewrite <- !app_assoc|].
      pose proof (step_heartbeat_off K st ev st1 Hstep Hhb). congruence.
    + destruct (idle_run items K st1 tr st' HS1 Hhb1 Hu2 Hrun) as [-> ->].
      split; [done|]. rewrite Hp1, Hhb1. simpl.
      by rewrite <- !app_assoc.
Qed.

(** With one worker the transforms settle in input order. *)
Lemma serial_step items (f : Item → Outcome) st ev st' done :
  Steady items 1 st → invoked st = done ++ inflight st →
  obeys f 1 st [ev] → step 1 st ev = Some st' →
  ∃ done', invoked st' = done' ++ inflight st' ∧
           results f done' = results f done ++ written [ev].
Proof.
  intros [[_ Ha Hb _ _ _ _ _] _ _] Hinv [Hob _] Hstep.
  destruct ev as [i o | | how]; simpl in Hstep.
  - destruct (inflight st !! i) as [item|] eqn:Hi; [|done].
    injection Hstep as <-. subst o.
    assert (inflight st = [item] ∧ i = 0) as [Hone ->].
    { destruct (inflight st) as [|x [|y l]]; simpl in *; [done| |lia].
      destruct i; simpl in Hi; [|done]. by injection Hi as ->. }
    exists (done ++ [item]).
    set (st0 := with_inflight st (delete 0 (inflight st))).
    destruct (deliver_frame (f item) st0) as (_ & _ & Di & Dv & _).
    split.
    + unfold finally.
      match goal with |- context [processNext 1 ?m] =>
        destruct (processNext_cases 1 m) as [_ _ | _ | y q _ _] end.
      * unfold finish. destruct (chan _); simpl; rewrite Di, Dv; simpl;
          rewrite Hone, Hinv, Hone; simpl; by rewrite app_nil_r.
      * simpl. rewrite Di, Dv. simpl.
        rewrite Hone, Hinv, Hone. simpl. by rewrite app_nil_r.
      * simpl. rewrite Di, Dv. simpl. rewrite Hone, Hinv, Hone. done.
    + unfold results. rewrite flat_map_app. simpl. by rewrite !app_nil_r.
  - destruct (heartbeat st); [|done]. injection Hstep as <-.
    exists done. unfold enqueue. destruct (chan st); simpl;
      by rewrite app_nil_r.
  - exists done.
    destruct (chan st), how; try done; injection Hstep as <-; simpl;
      by rewrite app_nil_r.
Qed.

Lemma serial_run items (f : Item → Outcome) st tr st' done :
  Steady items 1 st → invoked st = done ++ inflight st →
  obeys f 1 st tr → run 1 st tr = Some st' →
  ∃ done', invoked st' = done' ++ inflight st' ∧
           results f done' = results f done ++ written tr.
Proof.
  revert st done. induction tr as [|ev tr IH]; intros st done HS Hinv Hob Hrun.
  - simpl in Hrun. injection Hrun as <-. exists done.
    simpl. by rewrite app_nil_r.
  - simpl in Hrun, Hob.
    destruct (step 1 st ev) as [st1|] eqn:Hstep; [|done].
    destruct Hob as [Hob1 Hob2].
    pose proof (step_steady items 1 st ev st1 HS Hstep) as HS1.
    destruct (serial_step items f st ev st1 done HS Hinv) as (d1 & Hi1 & Hr1);
      [simpl; by rewrite Hstep | done |].
    destruct (IH st1 d1 HS1 Hi1 Hob2 Hrun) as (d' & Hi' & Hr').
    exists d'. split; [done|]. rewrite Hr', Hr1.
    destruct ev; simpl; by rewrite <- ?app_assoc, ?app_nil_r.
Qed.

(** When as many transforms have settled as there are items, or when
    nothing is in flight, the run is over. *)
Lemma run_complete items c K tr st :
  0 < K → run K (processConcurrently items c K) tr = Some st →
  settles tr = length items ∨ inflight st = [] →
  invoked st = items ∧ queue st = [] ∧ inflight st = [].
Proof.
  intros HK Hrun Hdone.
  pose proof (processConcurrently_steady items c K HK) as H0.
  pose proof (run_steady items K _ tr st H0 Hrun)
    as [[Hf Ha _ _ _ _ _ _] Hbusy _].
  pose proof (run_count K _ tr st Hrun) as Hc.
  pose proof (launch_count K K (initial items c)) as Hl.
  fold (processConcurrently items c K) in Hl. simpl in Hl.
  assert (length (invoked st) + length (queue st) = length items) as Hlen.
  { by rewrite <- length_app, Hf. }
  assert (inflight st = []) as Hi.
  { destruct Hdone as [Hn | Hi]; [|done]. apply length_zero_iff_nil. lia. }
  assert (queue st = []) as Hq.
  { destruct (queue st) as [|x q] eqn:Hq; [done|].
    rewrite Hi, Hbusy in Ha; [simpl in Ha; lia | done]. }
  by rewrite Hq, app_nil_r in Hf.
Qed.

(** While the interval is armed, the loop of line 77 has written
    nothing. *)
Lemma launch_armed_sink K i st :
  heartbeat (launch K i st) = true → sink (launch K i st) = sink st.
Proof.
  revert st. induction i as [|i IH]; intros st Hhb; simpl in *; [done|].
  rewrite (IH _ Hhb).
  assert (heartbeat (processNext K st) = true) as Hpn.
  { destruct (heartbeat (processNext K st)) eqn:Hoff; [done|].
    clear IH. revert Hhb. generalize (processNext K st) Hoff. clear.
    induction i as [|i IH]; intros r Hoff; simpl; [congruence|].
    apply IH. by apply processNext_heartbeat_off. }
  destruct (processNext_cases K st) as [_ _ | _ | item rest _ _];
    try done.
  unfold finish in Hpn. by destruct (chan st).
Qed.

(** A run over a non-empty list starts with the interval armed and an
    empty sink. *)
Lemma processConcurrently_armed items c K :
  0 < K → items ≠ [] →
  heartbeat (processConcurrently items c K) = true ∧
  sink (processConcurrently items c K) = [] ∧
  chan (processConcurrently items c K) = c.
Proof.
  intros HK Hne.
  pose proof (processConcurrently_steady items c K HK)
    as [[Hf _ _ Ht _ _ _ _] _ _].
  pose proof (launch_count K K (initial items c)) as Hl.
  fold (processConcurrently items c K) in Hl. simpl in Hl.
  assert (heartbeat (processConcurrently items c K) = true) as Hhb.
  { destruct (heartbeat _); [done|]. destruct Ht as [Hq Hi]; [done|].
    rewrite Hq, app_nil_r in Hf. rewrite Hi in Hl. simpl in Hl.
    destruct (invoked _); [by subst items | simpl in Hl; lia]. }
  split; [done|]. split.
  - unfold processConcurrently in *. by rewrite launch_armed_sink.
  - unfold processConcurrently.
    assert (∀ i st, chan (launch K i st) = chan st) as Hchan.
    { induction i as [|i IH]; intros st; simpl; [done|]. rewrite IH.
      destruct (processNext_cases K st) as [_ _ | _ | item rest _ _];
        try done.
      unfold finish. by destruct (chan st). }
    by rewrite Hchan.
Qed.

Lemma terminals_payload l : terminals (payload l) = terminals l.
Proof.
  unfold terminals, payload. induction l as [|c l IH]; [done|].
  destruct c; simpl; by rewrite ?IH.
Qed.

Lemma terminals_app l1 l2 :
  terminals (l1 ++ l2) = terminals l1 + terminals l2.
Proof. unfold terminals. by rewrite List.filter_app, length_app. Qed.

Lemma terminals_written tr : terminals (written tr) = 0.
Proof.
  induction tr as [|[i o | | how] tr IH]; simpl; try done.
  rewrite terminals_app, IH. unfold chunks_of.
  destruct o as [r|e]; [destruct (truthy r)|]; done.
Qed.

(** What the claim about the terminal chunk comes to on a non-empty
    list: while the environment leaves the stream alone, the payload of
    the sink is the results in completion order, followed by exactly one
    terminal chunk once the run is over, and a resolved promise means the
    run is over. *)
Lemma nonempty_run_ends_once items K tr st :
  0 < K → items ≠ [] →
  run K (processConcurrently items Readable K) tr = Some st →
  undisturbed tr = true →
  payload (sink st) =
    written tr ++ (if heartbeat st then [] else [EndOfStream]) ∧
  terminals (sink st) = (if heartbeat st then 0 else 1) ∧
  (promise st = Resolved → last (sink st) = Some EndOfStream).
Proof.
  intros HK Hne Hrun Hund.
  pose proof (processConcurrently_steady items Readable K HK) as H0.
  destruct (processConcurrently_armed items Readable K HK Hne)
    as (Hhb & Hs & Hc).
  destruct (run_payload items K _ tr st H0 Hc Hund Hrun) as [Hc' Hp].
  rewrite Hs, Hhb in Hp. simpl in Hp.
  assert (payload (sink st) =
          written tr ++ (if heartbeat st then [] else [EndOfStream])) as Hpay.
  { rewrite Hp. by destruct (heartbeat st). }
  split; [done|]. split.
  - rewrite <- terminals_payload, Hpay, terminals_app, terminals_written.
    by destruct (heartbeat st).
  - pose proof (run_steady items K _ tr st H0 Hrun)
      as [[_ _ _ _ Hr _ _ Hl] _ _].
    intros Hres. apply Hl; [done | by apply Hr].
Qed.

(** When [processConcurrently] returns, the transform has been called on
    the items in flight and on nothing else. *)
Lemma launch_invoked K i st :
  invoked st = inflight st →
  invoked (launch K i st) = inflight (launch K i st).
Proof.
  revert st. induction i as [|i IH]; intros st Heq; simpl; [done|].
  apply IH.
  destruct (processNext_cases K st) as [_ _ | _ | item rest _ _].
  - unfold finish. by destruct (chan st).
  - done.
  - simpl. by rewrite Heq.
Qed.

(** What the claim about the timer comes to on a non-empty list: line 50
    is executed once if the run is over and not at all before. *)
Lemma nonempty_run_clears_interval_once items c K tr st :
  0 < K → items ≠ [] →
  run K (processConcurrently items c K) tr = Some st →
  clearInterval_calls items c K tr = (if heartbeat st then 0 else 1).
Proof.
  intros HK Hne Hrun.
  pose proof (processConcurrently_steady items c K HK) as H0.
  destruct (processConcurrently_armed items c K HK Hne) as (Hhb & _ & _).
  pose proof (run_clears_once items K _ tr st H0 Hrun) as Honce.
  rewrite Hhb in Honce. unfold clearInterval_calls.
  unfold processConcurrently in Hhb.
  rewrite (launch_clears_armed K K _ Hhb). exact Honce.
Qed.

End Handlers.

(** ** Facts about the registry and the client store *)

Import Endpoint.

Lemma find_some_in (P : Session → bool) (l : list Session) (s : Session) :
  find P l = Some s → In s l ∧ P s = true.
Proof. apply find_some. Qed.

(** With unique ids, the id determines the member. *)
Lemma unique_ids_inj (l : list Session) (s1 s2 : Session) :
  NoDup (map id l) → In s1 l → In s2 l → id s1 = id s2 → s1 = s2.
Proof.
  induction l as [|x l IH]; simpl; [done|].
  intros Hnd [-> | H1] [-> | H2] Hid; try done.
  - apply NoDup_cons in Hnd as [Hx _]. exfalso. apply Hx.
    rewrite Hid. apply list_elem_of_In, in_map, H2.
  - apply NoDup_cons in Hnd as [Hx _]. exfalso. apply Hx.
    rewrite <- Hid. apply list_elem_of_In, in_map, H1.
  - apply NoDup_cons in Hnd as [_ Hnd]. by apply IH.
Qed.

Lemma find_none_after_cancel (session : Session) (reg : Registry) :
  unique_ids reg → In session (sessions reg) →
  find (λ s, bool_decide (Some (id s) = Some (id session)))
       (sessions (cancel session reg)) = None.
Proof.
  intros Hu Hin.
  destruct (find _ (sessions (cancel session reg))) as [s|] eqn:Hfind;
    [|done].
  apply find_some_in in Hfind as [Hs Hid]. exfalso.
  apply bool_decide_eq_true in Hid. injection Hid as Hid.
  simpl in Hs. apply list_elem_of_In, list_elem_of_filter in Hs as [Href Hs].
  apply list_elem_of_In in Hs. apply Href. f_equal.
  by apply (unique_ids_inj (sessions reg)).
Qed.

(** A fresh id keeps the ids of the registry unique. *)
Lemma POST_unique_ids (uuid : string) (requestBody : list string)
    (reg : Registry) :
  unique_ids reg → ¬ In uuid (map id (sessions reg)) →
  unique_ids (snd (POST uuid requestBody reg)).
Proof.
  unfold unique_ids. simpl. intros Hu Hfresh. rewrite map_app. simpl.
  apply NoDup_app. split; [done|]. split.
  - intros x Hx Hx'. apply list_elem_of_In in Hx.
    apply list_elem_of_singleton in Hx'. by subst.
  - apply NoDup_singleton.
Qed.

Import Client.

Section StoreFacts.

Context {T : Type} (key : T → string) (parseData : string → T + Err).

Lemma receive_lookup (msgs : list string) (store : Store) (k : string) :
  value (receive key parseData msgs store) !! k =
  match latest key k (parsed parseData msgs) with
  | Some r => Some r
  | None => value store !! k
  end.
Proof.
  revert store. induction msgs as [|data msgs IH]; intros store; [done|].
  cbn [receive parsed]. rewrite IH. unfold onmessage.
  destruct (parseData data) as [r|err]; simpl; [|done].
  destruct (latest key k (parsed parseData msgs)); [done|].
  case_bool_decide as Hk.
  - subst k. apply lookup_insert_eq.
  - by apply lookup_insert_ne.
Qed.

End StoreFacts.

(** [start] closes the stream only after the promise has resolved, and
    by then the terminal chunk is the last chunk of the sink. *)
Lemma start_resume_closes_after_end
    (items : list string) (K : nat) (tr : list Event) (st st' : Run) :
  0 < K → run K (processConcurrently items Readable K) tr = Some st →
  chan st = Readable → start_resume st = Some st' →
  promise st ≠ Pending ∧
  (promise st = Resolved →
   chan st' = Closed ∧ sink st' = sink st ∧
   last (sink st) = Some EndOfStream).
Proof.
  intros HK Hrun Hc Hres.
  pose proof (processConcurrently_steady items Readable K HK) as H0.
  pose proof (run_steady items K _ tr st H0 Hrun)
    as [[_ _ _ _ Hr _ _ Hl] _ _].
  unfold start_resume in Hres. rewrite Hc in Hres.
  destruct (promise st) as [| |err] eqn:Hp; [done| |done].
  split; [done|]. intros _. injection Hres as <-. simpl.
  split; [done|]. split; [done|]. apply Hl; [done | by apply Hr].
Qed.

(** ** Properties of the processor *)

(** C1.  For every item list and every positive concurrency, in every
    state a run of [processConcurrently] can reach: the transform has been
    called on a prefix of the input, in input order, and the rest still
    waits in the queue, so each item is dequeued at most once and none is
    skipped; [activePromises] counts the suspended activations and never
    exceeds the concurrency; every call that has settled is counted once;
    items wait only while the pool is full and every suspended activation
    can resume; once as many calls have settled as there are items, or once
    nothing is in flight, the transform has been called on exactly the
    input list; from the state reached, letting the transforms settle
    completes the run; and the bound on [activePromises] also holds after
    each pass of the launching loop. *)
Theorem processConcurrently_each_item_once
    {Item : Type} (items : list Item) (c : Chan) (K : nat)
    (tr : list Event) (st : Run) :
  0 < K →
  run K (processConcurrently items c K) tr = Some st →
  invoked st ++ queue st = items ∧
  activePromises st = length (inflight st) ∧
  activePromises st ≤ K ∧
  settles tr + length (inflight st) = length (invoked st) ∧
  (queue st ≠ [] → activePromises st = K) ∧
  (∀ i o, i < length (inflight st) → is_Some (step K st (Settle i o))) ∧
  (inflight st = [] → invoked st = items ∧ length (invoked st) = length items) ∧
  (settles tr = length items → invoked st = items ∧ inflight st = []) ∧
  (∀ o, ∃ st', run K st (replicate (length (queue st) + length (inflight st))
                                   (Settle 0 o)) = Some st' ∧
               invoked st' = items ∧ inflight st' = []) ∧
  (∀ i, activePromises (launch K i (initial items c)) ≤ K).
Proof.
  intros HK Hrun.
  pose proof (processConcurrently_steady items c K HK) as H0.
  pose proof (run_steady items K _ tr st H0 Hrun) as HS.
  pose proof (run_count K _ tr st Hrun) as Hc.
  pose proof (launch_count K K (initial items c)) as Hl.
  fold (processConcurrently items c K) in Hl. simpl in Hl.
  pose proof HS as [[Hf Ha Hb _ _ _ _ _] Hbusy _].
  assert (length (invoked st) + length (queue st) = length items) as Hlen.
  { by rewrite <- length_app, Hf. }
  assert (inflight st = [] → queue st = []) as Hidle.
  { intros Hi. destruct (queue st) as [|x q] eqn:Hq; [done|].
    rewrite Hi, Hbusy in Ha; [simpl in Ha; lia | done]. }
  split; [done|]. split; [done|]. split; [done|]. split; [lia|].
  split; [done|]. split; [intros i o Hi; by apply settle_enabled|].
  split; [|split; [|split]].
  - intros Hi. pose proof Hf as Hall.
    rewrite (Hidle Hi), app_nil_r in Hall. by rewrite Hall.
  - intros Hn.
    assert (queue st = []) as Hq by (apply length_zero_iff_nil; lia).
    split; [|apply length_zero_iff_nil; lia].
    pose proof Hf as Hall. by rewrite Hq, app_nil_r in Hall.
  - intros o.
    destruct (drain items K o _ st HS HK eq_refl) as (st' & Hrun' & Hq' & Hi').
    exists st'. split; [done|]. split; [|done].
    pose proof (run_steady items K st _ st' HS Hrun')
      as [[Hf' _ _ _ _ _ _ _] _ _].
    by rewrite <- Hf', Hq', app_nil_r.
  - intros i.
    by destruct (launch_sound items K i _ (initial_sound items K c)).
Qed.

(** The run of three items through two workers, with a timer tick between
    the settlements. *)
Lemma processConcurrently_each_item_once_witness :
  ∃ st,
    run 2 (processConcurrently ["a"; "b"; "c"] Readable 2)
        [Settle 1 (Fulfilled (Some "B")); Tick;
         Settle 0 (Fulfilled None); Settle 0 (Rejected TypeError)] = Some st ∧
    invoked st = ["a"; "b"; "c"] ∧ activePromises st ≤ 2.
Proof.
  eexists. split; [vm_compute; reflexivity|].
  match goal with |- invoked ?s = _ ∧ _ =>
    pose proof (processConcurrently_each_item_once
                  ["a"; "b"; "c"] Readable 2
                  [Settle 1 (Fulfilled (Some "B")); Tick;
                   Settle 0 (Fulfilled None); Settle 0 (Rejected TypeError)]
                  s ltac:(lia) ltac:(vm_compute; reflexivity))
      as (_ & _ & Hb & _ & _ & _ & _ & Hall & _)
  end.
  split; [apply Hall; reflexivity | exact Hb].
Defined.


(** C2, on the input that breaks it.  With an empty item list every pass
    of the launching loop takes the terminal branch: a readable sink
    receives as many terminal chunks as the concurrency, five with the
    concurrency [GET] runs with, and the promise resolves. *)
Theorem empty_input_repeats_end_of_stream {Item : Type} (K : nat) :
  sink (processConcurrently ([] : list Item) Readable K) =
    replicate K EndOfStream ∧
  terminals (sink (processConcurrently ([] : list Item) Readable K)) = K ∧
  promise (processConcurrently ([] : list Item) Readable (S K)) = Resolved ∧
  sink (processConcurrently ([] : list Item) Readable 5) =
    [EndOfStream; EndOfStream; EndOfStream; EndOfStream; EndOfStream].
Proof.
  unfold processConcurrently.
  destruct (launch_empty K K (initial ([] : list Item) Readable))
    as [Hs _]; [done..|].
  destruct (launch_empty (S K) K (initial ([] : list Item) Readable))
    as [_ Hp]; [done..|].
  rewrite Hs. simpl. split; [done|]. split; [apply terminals_replicate|].
  split; [exact Hp | reflexivity].
Qed.




(** C5, refuted as stated: after the first of two concurrent transforms
    has rejected the promise, the result of its sibling is still written
    to the sink. *)
Lemma sibling_result_written_after_rejection :
  ∃ st1 st2,
    run 2 (processConcurrently ["a"; "b"] Readable 2)
        [Settle 0 (Rejected (Thrown "boom"))] = Some st1 ∧
    promise st1 = RejectedWith (Thrown "boom") ∧ sink st1 = [] ∧
    step 2 st1 (Settle 0 (Fulfilled (Some "B"))) = Some st2 ∧
    sink st2 = [Data "B"; Separator; EndOfStream].
Proof.
  do 2 eexists. split; [vm_compute; reflexivity|].
  split; [reflexivity|]. split; [reflexivity|].
  split; [vm_compute; reflexivity | reflexivity].
Qed.

(** C5, amended.  After a transform call has rejected the promise, what
    the remaining and in-flight transforms do no longer changes the
    promise, but their results are not discarded: every suspended
    activation still resumes, a non-empty result that arrives while the
    stream is readable is written to the sink followed by the separator,
    and an item that waits in the queue is still dequeued and handed to
    the transform. *)
Theorem siblings_continue_after_rejection
    {Item : Type} (items : list Item) (c : Chan) (K : nat)
    (tr : list Event) (st : Run) (err : Err) :
  0 < K →
  run K (processConcurrently items c K) tr = Some st →
  promise st = RejectedWith err →
  (∀ tr' st', run K st tr' = Some st' → promise st' = RejectedWith err) ∧
  (∀ i item s,
     inflight st !! i = Some item → s ≠ EmptyString → chan st = Readable →
     ∃ st' tail,
       step K st (Settle i (Fulfilled (Some s))) = Some st' ∧
       sink st' = sink st ++ Data s :: Separator :: tail) ∧
  (∀ i o item rest,
     i < length (inflight st) → queue st = item :: rest →
     ∃ st', step K st (Settle i o) = Some st' ∧
            invoked st' = invoked st ++ [item] ∧ queue st' = rest).
Proof.
  intros HK Hrun Hp.
  pose proof (processConcurrently_steady items c K HK) as H0.
  pose proof (run_steady items K _ tr st H0 Hrun) as HS.
  split; [|split].
  - intros tr' st' Hrun'. by apply (run_rejected K st tr').
  - intros i item s Hi Hs Hc. by apply (step_result_written K st i item).
  - intros i o item rest Hi Hq. by apply (step_settle_dequeues items).
Qed.

Lemma siblings_continue_after_rejection_witness :
  ∃ st,
    run 1 (processConcurrently ["a"; "b"; "c"] Readable 1)
        [Settle 0 (Rejected (Thrown "boom"))] = Some st ∧
    promise st = RejectedWith (Thrown "boom") ∧
    ∃ st' tail,
      step 1 st (Settle 0 (Fulfilled (Some "B"))) = Some st' ∧
      sink st' = sink st ++ Data "B" :: Separator :: tail.
Proof.
  eexists. split; [vm_compute; reflexivity|]. split; [reflexivity|].
  match goal with |- ∃ _ _, step 1 ?s _ = _ ∧ _ =>
    destruct (siblings_continue_after_rejection
                ["a"; "b"; "c"] Readable 1
                [Settle 0 (Rejected (Thrown "boom"))]
                s (Thrown "boom") ltac:(lia) ltac:(vm_compute; reflexivity)
                eq_refl) as (_ & Hw & _)
  end.
  apply (Hw 0 "b" "B"); [reflexivity | discriminate | reflexivity].
Defined.

(** C6, on the input that breaks it.  One item is in flight when the
    client goes away.  The heartbeat write that follows is caught and
    logged.  When the transform then fulfils with nothing to write, the
    terminal write throws out of [processNext]: the rejection is handled
    nowhere, [resolve] is never reached, no handler is left, and the
    promise stays pending.  When it fulfils with a result instead, the
    failed item write is caught but rejects the promise of the run. *)
Theorem write_after_close_not_suppressed :
  ∃ st st',
    run 1 (processConcurrently ["a"] Readable 1)
        [Shut Closed; Tick; Settle 0 (Fulfilled None)] = Some st ∧
    logged st = [TypeError] ∧ unhandled st = [TypeError] ∧
    promise st = Pending ∧ sink st = [] ∧
    (∀ ev, step 1 st ev = None) ∧
    run 1 (processConcurrently ["a"] Readable 1)
        [Shut Closed; Settle 0 (Fulfilled (Some "A"))] = Some st' ∧
    promise st' = RejectedWith TypeError ∧ unhandled st' = [TypeError].
Proof.
  do 2 eexists. split; [vm_compute; reflexivity|].
  do 4 (split; [reflexivity|]). split.
  - intros [i o | | how]; simpl; [by destruct i | done | by destruct how].
  - split; [vm_compute; reflexivity|]. split; reflexivity.
Qed.

(** ** Properties of the endpoints *)

(** C3, refuted as stated: after a submission, two stream requests with
    the session id of the answer both open a stream over the same
    session, and the registry still holds it. *)
Lemma second_GET_finds_session_again :
  ∃ session stream reg,
    GET (Some "s1") (snd (POST "s1" ["a"] Endpoint.empty)) =
      (EventStream session stream, reg) ∧
    GET (Some "s1") reg = (EventStream session stream, reg) ∧
    In session (sessions reg).
Proof.
  do 3 eexists. split; [vm_compute; reflexivity|].
  split; [vm_compute; reflexivity | by left].
Qed.

(** C3, amended.  Opening a stream does not consume the session: a
    successful [GET] leaves the registry as it was, so a second [GET] with
    the same id opens a stream over the same session again.  The session
    is removed when a stream opened for it is cancelled; after that, in a
    registry with unique ids, a [GET] with that id fails with the 404
    condition. *)
Theorem session_released_by_cancel_only
    (sessionId : option string) (reg reg' : Registry)
    (session : Session) (stream : Run) :
  unique_ids reg →
  GET sessionId reg = (EventStream session stream, reg') →
  reg' = reg ∧
  In session (sessions reg') ∧
  sessionId = Some (id session) ∧
  GET sessionId reg' = (EventStream session stream, reg') ∧
  ¬ In session (sessions (cancel session reg')) ∧
  GET sessionId (cancel session reg') = (NotFound, cancel session reg').
Proof.
  intros Hu Hget. unfold GET in Hget.
  destruct (find _ (sessions reg)) as [s|] eqn:Hfind; [|done].
  injection Hget as -> <- <-.
  pose proof (find_some_in _ _ _ Hfind) as [Hin Hid].
  apply bool_decide_eq_true in Hid. subst sessionId.
  split; [done|]. split; [done|]. split; [done|]. split; [|split].
  - unfold GET. by rewrite Hfind.
  - simpl. intros Hc. apply list_elem_of_In, list_elem_of_filter in Hc.
    by destruct Hc as [Hne _].
  - unfold GET. by rewrite find_none_after_cancel.
Qed.

Lemma session_released_by_cancel_only_witness :
  ∃ session stream reg,
    GET (Some "s1") (snd (POST "s1" ["a"] Endpoint.empty)) =
      (EventStream session stream, reg) ∧
    GET (Some "s1") reg = (EventStream session stream, reg) ∧
    fst (GET (Some "s1") (cancel session reg)) = NotFound.
Proof.
  do 3 eexists. split; [vm_compute; reflexivity|].
  assert (unique_ids (snd (POST "s1" ["a"] Endpoint.empty))) as Hu.
  { apply NoDup_singleton. }
  match goal with |- GET _ ?r = (EventStream ?s ?t, _) ∧ _ =>
    destruct (session_released_by_cancel_only
                (Some "s1") (snd (POST "s1" ["a"] Endpoint.empty)) r s t
                Hu ltac:(vm_compute; reflexivity))
      as (_ & _ & _ & Hagain & _ & Hgone)
  end.
  split; [exact Hagain | by rewrite Hgone].
Defined.

(** ** Properties of the client *)

(** C9.  After any sequence of messages the collection maps a key to the
    most recent record the parser returned with that key, and every key
    no message carried keeps the value it had; in the scenario of the
    three messages, for a parser that reads them the way [JSON.parse]
    does, an empty collection ends up holding the second record under x
    and the third under y. *)
Theorem streamData_last_write_wins :
  (∀ (T : Type) (key : T → string) (parseData : string → T + Err)
     (msgs : list string) (store : Store) (k : string),
     value (receive key parseData msgs store) !! k =
     match latest key k (parsed parseData msgs) with
     | Some r => Some r
     | None => value store !! k
     end) ∧
  (∀ parseData : string → Keyed + Err,
     parseData (payload_text "x" "1") = inl (mkKeyed "x" 1) →
     parseData (payload_text "x" "2") = inl (mkKeyed "x" 2) →
     parseData (payload_text "y" "3") = inl (mkKeyed "y" 3) →
     value (receive keyed_key parseData
              [payload_text "x" "1"; payload_text "x" "2";
               payload_text "y" "3"]
              (mkStore ∅ 0)) =
     <["y" := mkKeyed "y" 3]> (<["x" := mkKeyed "x" 2]> ∅)).
Proof.
  split.
  - intros. apply receive_lookup.
  - intros parseData H1 H2 H3. apply map_eq. intros k.
    rewrite receive_lookup. cbn [parsed]. rewrite H1, H2, H3.
    cbn [latest keyed_key].
    destruct (decide (k = "y")) as [-> | Hy].
    + rewrite lookup_insert_eq. by rewrite bool_decide_eq_true_2.
    + rewrite lookup_insert_ne by done.
      rewrite (bool_decide_eq_false_2 ("y" = k)) by done.
      destruct (decide (k = "x")) as [-> | Hx].
      * rewrite lookup_insert_eq. by rewrite bool_decide_eq_true_2.
      * rewrite lookup_insert_ne by done.
        rewrite !(bool_decide_eq_false_2 ("x" = k)) by done. done.
Qed.

Lemma streamData_last_write_wins_witness :
  value (receive keyed_key scenario_parser
           [payload_text "x" "1"; payload_text "x" "2"; payload_text "y" "3"]
           (mkStore ∅ 0)) =
  <["y" := mkKeyed "y" 3]> (<["x" := mkKeyed "x" 2]> ∅).
Proof.
  destruct streamData_last_write_wins as [_ Hscenario].
  apply (Hscenario scenario_parser); reflexivity.
Defined.

(** C10.  When the parser throws on a message, the handler ends with that
    exception and the store is exactly as before: the collection is
    untouched and [store.update] has not run. *)
Theorem parse_failure_leaves_store
    {T : Type} (key : T → string) (parseData : string → T + Err)
    (data : string) (store : Store) (err : Err) :
  parseData data = inr err →
  onmessage key parseData data store = (store, Some err) ∧
  value (fst (onmessage key parseData data store)) = value store ∧
  updates (fst (onmessage key parseData data store)) = updates store.
Proof.
  intros Hthrow. unfold onmessage. by rewrite Hthrow.
Qed.

Lemma parse_failure_leaves_store_witness :
  onmessage keyed_key scenario_parser "not json"
            (mkStore (<["x" := mkKeyed "x" 1]> ∅) 1) =
  (mkStore (<["x" := mkKeyed "x" 1]> ∅) 1, Some (Thrown "SyntaxError")).
Proof.
  apply (parse_failure_leaves_store keyed_key scenario_parser "not json"
           (mkStore (<["x" := mkKeyed "x" 1]> ∅) 1) (Thrown "SyntaxError")).
  reflexivity.
Defined.

(** C7.  Items leave the queue in input order: in every reachable state
    the items handed to the transform so far, in the order of the calls,
    followed by the queue, are the input list.  With one worker, a pure
    transform and a stream the environment leaves alone, the payload of
    the sink after the last settlement is the results of the items in
    input order followed by one terminal chunk; for the items a, b, c and
    the transform of the endpoint these are the three data lines in the
    order a, b, c, each with its separator, and then the terminal
    chunk. *)
Theorem dequeue_in_input_order :
  (∀ (Item : Type) (items : list Item) (c : Chan) (K : nat)
     (tr : list Event) (st : Run),
     0 < K → run K (processConcurrently items c K) tr = Some st →
     invoked st ++ queue st = items) ∧
  (∀ (Item : Type) (items : list Item) (f : Item → Outcome)
     (tr : list Event) (st : Run),
     run 1 (processConcurrently items Readable 1) tr = Some st →
     undisturbed tr = true →
     obeys f 1 (processConcurrently items Readable 1) tr →
     settles tr = length items →
     invoked st = items ∧
     payload (sink st) = results f items ++ [EndOfStream]) ∧
  (∀ (tr : list Event) (st : Run),
     run 1 (processConcurrently ["a"; "b"; "c"] Readable 1) tr = Some st →
     undisturbed tr = true →
     obeys Endpoint.processItem 1
           (processConcurrently ["a"; "b"; "c"] Readable 1) tr →
     settles tr = 3 →
     payload (sink st) =
       [Data (String.append "data: a" nl); Separator;
        Data (String.append "data: b" nl); Separator;
        Data (String.append "data: c" nl); Separator;
        EndOfStream]).
Proof.
  assert (∀ (Item : Type) (items : list Item) (f : Item → Outcome)
            (tr : list Event) (st : Run),
            run 1 (processConcurrently items Readable 1) tr = Some st →
            undisturbed tr = true →
            obeys f 1 (processConcurrently items Readable 1) tr →
            settles tr = length items →
            invoked st = items ∧
            payload (sink st) = results f items ++ [EndOfStream]) as Hserial.
  { intros Item items f tr st Hrun Hund Hob Hn.
    assert (0 < 1) as H1 by lia.
    pose proof (processConcurrently_steady items Readable 1 H1) as H0.
    destruct (run_complete items Readable 1 tr st H1 Hrun (or_introl Hn))
      as (Hall & Hq & Hi).
    split; [done|].
    pose proof (run_steady items 1 _ tr st H0 Hrun) as [_ _ Hon].
    set (st0 := processConcurrently items Readable 1) in *.
    assert (invoked st0 = [] ++ inflight st0) as Hinv.
    { by apply (launch_invoked 1 1 (initial items Readable)). }
    destruct (serial_run items f st0 tr st [] H0 Hinv Hob Hrun)
      as (done' & Hd & Hres).
    rewrite Hi, app_nil_r, Hall in Hd. subst done'. simpl in Hres.
    destruct items as [|x items'].
    - destruct tr as [|ev tr]; [|by (destruct ev; simpl in Hn, Hund)].
      simpl in Hrun. by injection Hrun as <-.
    - destruct (nonempty_run_ends_once (x :: items') 1 tr st H1
                  ltac:(done) Hrun Hund) as (Hpay & _ & _).
      rewrite Hpay, Hon, Hres; done. }
  split; [|split].
  - intros Item items c K tr st HK Hrun.
    pose proof (processConcurrently_steady items c K HK) as H0.
    by pose proof (run_steady items K _ tr st H0 Hrun)
      as [[Hf _ _ _ _ _ _ _] _ _].
  - exact Hserial.
  - intros tr st Hrun Hund Hob Hn.
    by destruct (Hserial string ["a"; "b"; "c"] Endpoint.processItem
                   tr st Hrun Hund Hob Hn) as [_ ->].
Qed.

Lemma dequeue_in_input_order_witness :
  ∃ st,
    run 1 (processConcurrently ["a"; "b"; "c"] Readable 1)
        [Settle 0 (Endpoint.processItem "a"); Tick;
         Settle 0 (Endpoint.processItem "b"); Tick; Tick;
         Settle 0 (Endpoint.processItem "c")] = Some st ∧
    payload (sink st) =
      [Data (String.append "data: a" nl); Separator;
       Data (String.append "data: b" nl); Separator;
       Data (String.append "data: c" nl); Separator;
       EndOfStream] ∧
    invoked st ++ queue st = ["a"; "b"; "c"].
Proof.
  eexists. split; [vm_compute; reflexivity|].
  destruct dequeue_in_input_order as (Hfifo & _ & Habc).
  split.
  - apply (Habc [Settle 0 (Endpoint.processItem "a"); Tick;
                  Settle 0 (Endpoint.processItem "b"); Tick; Tick;
                  Settle 0 (Endpoint.processItem "c")]);
      [vm_compute; reflexivity | reflexivity | | reflexivity].
    vm_compute. repeat split.
  - apply (Hfifo string ["a"; "b"; "c"] Readable 1
             [Settle 0 (Endpoint.processItem "a"); Tick;
              Settle 0 (Endpoint.processItem "b"); Tick; Tick;
              Settle 0 (Endpoint.processItem "c")]);
      [lia | vm_compute; reflexivity].
Defined.

(** ** Further facts about the handlers *)

Section MoreHandlers.

Context {Item : Type}.
Implicit Types (st : @Run Item) (items : list Item) (K : nat).


(** No handler takes a chunk back or reorders the sink. *)
Lemma step_sink_prefix K st ev st' :
  step K st ev = Some st' → sink st `prefix_of` sink st'.
Proof.
  intros Hstep. destruct ev as [i o | | how]; simpl in Hstep.
  - destruct (inflight st !! i); [|done]. injection Hstep as <-.
    set (st0 := with_inflight st (delete i (inflight st))).
    destruct (deliver_sink o st0) as (added & Hs & _).
    unfold finally.
    match goal with |- context [processNext K ?m] =>
      destruct (processNext_sink K m) as [Hk | Hk]; rewrite Hk end;
      simpl; fold st0; rewrite Hs; simpl.
    + by exists added.
    + exists (added ++ [EndOfStream]). by rewrite app_assoc.
  - destruct (heartbeat st); [|done]. injection Hstep as <-.
    unfold enqueue. destruct (chan st); simpl; [by eexists | done..].
  - destruct (chan st), how; try done; by injection Hstep as <-.
Qed.

(** Once the stream is shut, no handler changes the sink. *)
Lemma processNext_shut K st :
  chan st ≠ Readable →
  sink (processNext K st) = sink st ∧ chan (processNext K st) = chan st.
Proof.
  intros Hc.
  destruct (processNext_cases K st) as [_ _ | _ | item rest _ _]; try done.
  unfold finish. by destruct (chan st).
Qed.

Lemma deliver_shut o st :
  chan st ≠ Readable → sink (deliver o st) = sink st.
Proof.
  intros Hc. unfold deliver, enqueue.
  destruct o as [r|e]; [destruct (truthy r)|]; try done.
  by destruct (chan st).
Qed.

Lemma step_shut K st ev st' :
  chan st ≠ Readable → step K st ev = Some st' →
  sink st' = sink st ∧ chan st' = chan st.
Proof.
  intros Hc Hstep. destruct ev as [i o | | how]; simpl in Hstep.
  - destruct (inflight st !! i); [|done]. injection Hstep as <-.
    set (st0 := with_inflight st (delete i (inflight st))).
    destruct (deliver_frame o st0) as (_ & _ & _ & _ & _ & Dc & _).
    pose proof (deliver_shut o st0 Hc) as Ds.
    unfold finally.
    match goal with |- context [processNext K ?m] =>
      destruct (processNext_shut K m) as [Hs Hc'] end.
    { simpl. fold st0. by rewrite Dc. }
    rewrite Hs, Hc'. simpl. fold st0. by rewrite Ds, Dc.
  - destruct (heartbeat st); [|done]. injection Hstep as <-.
    unfold enqueue. by destruct (chan st) eqn:Hc'.
  - by destruct (chan st), how.
Qed.

Lemma Framed_app l1 l2 : Framed l1 → Framed l2 → Framed (l1 ++ l2).
Proof.
  intros H1 H2. induction H1; simpl; try done; by constructor.
Qed.

Lemma Framed_chunks_of o : Framed (chunks_of o).
Proof.
  unfold chunks_of. destruct o as [[s|]|e]; simpl; try constructor.
  destruct (String.eqb s EmptyString) eqn:Hs; simpl; constructor.
  - by apply String.eqb_neq.
  - constructor.
Qed.

Lemma deliver_sink_cases o st :
  sink (deliver o st) = sink st ∨ sink (deliver o st) = sink st ++ chunks_of o.
Proof.
  destruct (chan st) eqn:Hc.
  - right. by apply deliver_readable.
  - left. apply deliver_shut. by rewrite Hc.
  - left. apply deliver_shut. by rewrite Hc.
Qed.

Lemma step_framed K st ev st' :
  step K st ev = Some st' → Framed (sink st) → Framed (sink st').
Proof.
  intros Hstep HF. destruct ev as [i o | | how]; simpl in Hstep.
  - destruct (inflight st !! i); [|done]. injection Hstep as <-.
    set (st0 := with_inflight st (delete i (inflight st))).
    assert (Framed (sink (deliver o st0))) as HF0.
    { destruct (deliver_sink_cases o st0) as [-> | ->]; [done|].
      apply Framed_app; [done | apply Framed_chunks_of]. }
    unfold finally.
    match goal with |- context [processNext K ?m] =>
      destruct (processNext_sink K m) as [Hk | Hk]; rewrite Hk end;
      simpl; fold st0; [done|].
    apply Framed_app; [done | repeat constructor].
  - destruct (heartbeat st); [|done]. injection Hstep as <-.
    unfold enqueue. destruct (chan st); simpl; [|done..].
    apply Framed_app; [done | repeat constructor].
  - destruct (chan st), how; try done; by injection Hstep as <-.
Qed.

Lemma launch_framed K i st :
  Framed (sink st) → Framed (sink (launch K i st)).
Proof.
  revert st. induction i as [|i IH]; intros st HF; simpl; [done|].
  apply IH. destruct (processNext_sink K st) as [-> | ->]; [done|].
  apply Framed_app; [done | repeat constructor].
Qed.

Lemma run_app K st tr1 tr2 st' :
  run K st (tr1 ++ tr2) = Some st' →
  ∃ st1, run K st tr1 = Some st1 ∧ run K st1 tr2 = Some st'.
Proof.
  revert st. induction tr1 as [|ev tr1 IH]; intros st Hrun; simpl in *.
  - by exists st.
  - destruct (step K st ev) as [st1|]; [|done]. by apply IH.
Qed.

(** While the stream is readable and no transform rejects, nothing goes
    wrong. *)
Lemma processNext_clean K st : Clean st → Clean (processNext K st).
Proof.
  intros [Hc Hl Hu Hp].
  destruct (processNext_cases K st) as [_ _ | _ | item rest _ _].
  - unfold finish. rewrite Hc. split; simpl; try done.
    rewrite Hp. by destruct (heartbeat st).
  - done.
  - by split.
Qed.

Lemma deliver_clean o st :
  Clean st → rejection_free [Settle 0 o] = true → Clean (deliver o st).
Proof.
  intros [Hc Hl Hu Hp] Ho.
  destruct (deliver_frame o st) as (_ & _ & _ & _ & Dh & Dc & Dl & Du).
  split; rewrite ?Dh, ?Dc, ?Dl, ?Du; try done.
  rewrite <- Hp. unfold deliver, enqueue. rewrite Hc.
  destruct o as [r|e]; [|done]. destruct (truthy r); [|done].
  simpl. by rewrite Hc.
Qed.

Lemma step_clean K st ev st' :
  Clean st → undisturbed [ev] = true → rejection_free [ev] = true →
  step K st ev = Some st' → Clean st'.
Proof.
  intros HC Hund Hrej Hstep.
  destruct ev as [i o | | how]; simpl in Hstep; [| |done].
  - destruct (inflight st !! i); [|done]. injection Hstep as <-.
    unfold finally. apply processNext_clean.
    set (st0 := with_inflight st (delete i (inflight st))).
    assert (Clean st0) as HC0 by (by destruct HC).
    assert (rejection_free [Settle 0 o] = true) as Ho by (by destruct o).
    by destruct (deliver_clean o st0 HC0 Ho).
  - destruct (heartbeat st) eqn:Hhb; [|done]. injection Hstep as <-.
    destruct HC as [Hc Hl Hu Hp]. unfold enqueue. rewrite Hc.
    split; simpl; try done.
Qed.

Lemma run_clean K st tr st' :
  Clean st → undisturbed tr = true → rejection_free tr = true →
  run K st tr = Some st' → Clean st'.
Proof.
  revert st. induction tr as [|ev tr IH]; intros st HC Hund Hrej Hrun;
    simpl in Hrun.
  - by injection Hrun as <-.
  - destruct (step K st ev) as [st1|] eqn:Hstep; [|done].
    assert (undisturbed [ev] = true ∧ undisturbed tr = true) as [Hu1 Hu2].
    { destruct ev; simpl in *; done. }
    assert (rejection_free [ev] = true ∧ rejection_free tr = true)
      as [Hr1 Hr2].
    { destruct ev as [i [r|e] | |]; simpl in *; done. }
    apply (IH st1); try done. by apply (step_clean K st ev).
Qed.

Lemma processConcurrently_clean items K :
  Clean (processConcurrently items Readable K).
Proof.
  unfold processConcurrently.
  assert (∀ i st, Clean st → Clean (launch K i st)) as Hlaunch.
  { induction i as [|i IH]; intros st HC; simpl; [done|].
    by apply IH, processNext_clean. }
  apply Hlaunch. by split.
Qed.

Section Provenance.

Variable f : Item → Outcome.

Lemma data_from_snoc l chunks c :
  data_from f l chunks → (∀ s, c ≠ Data s) → data_from f l (chunks ++ [c]).
Proof.
  intros Hd Hc s Hin. apply in_app_iff in Hin as [Hin | [Hin | []]].
  - by apply Hd.
  - by destruct (Hc s).
Qed.

Lemma processNext_traced items K st :
  Traced f items st → Traced f items (processNext K st).
Proof.
  intros [Hi Ht Hd].
  destruct (processNext_cases K st) as [_ _ | _ | item rest Hq _].
  - unfold finish. destruct (chan st); split; simpl; try done.
    by apply data_from_snoc.
  - done.
  - split; simpl.
    + intros x Hx. apply in_app_iff. apply in_app_iff in Hx as [Hx | Hx];
        [left; by apply Hi | by right].
    + intros x Hx. apply Ht. rewrite Hq.
      rewrite <- app_assoc in Hx. done.
    + intros s Hs. destruct (Hd s Hs) as (x & Hx & Hxs).
      exists x. split; [|done]. apply in_app_iff. by left.
Qed.

Lemma step_traced items K st ev st' :
  Traced f items st → obeys f K st [ev] → step K st ev = Some st' →
  Traced f items st'.
Proof.
  intros [Hi Ht Hd] [Hob _] Hstep.
  destruct ev as [i o | | how]; simpl in Hstep.
  - destruct (inflight st !! i) as [item|] eqn:Hlook; [|done].
    injection Hstep as <-. subst o.
    assert (In item (invoked st)) as Hitem.
    { apply Hi, list_elem_of_In, list_elem_of_lookup. eauto. }
    set (st0 := with_inflight st (delete i (inflight st))).
    destruct (deliver_frame (f item) st0) as (Dq & _ & Di & Dv & _).
    unfold finally. apply processNext_traced. split; simpl.
    + rewrite Di, Dv. simpl. intros x Hx. apply Hi.
      apply list_elem_of_In. apply list_elem_of_In in Hx.
      by apply list_elem_of_delete_inv in Hx.
    + by rewrite Dv, Dq.
    + rewrite Dv. simpl.
      destruct (deliver_sink_cases (f item) st0) as [-> | ->]; [done|].
      intros s Hs. apply in_app_iff in Hs as [Hs | Hs]; [by apply Hd|].
      by exists item.
  - destruct (heartbeat st); [|done]. injection Hstep as <-.
    unfold enqueue. destruct (chan st); split; simpl; try done.
    by apply data_from_snoc.
  - destruct (chan st), how; try done; by injection Hstep as <-.
Qed.

Lemma run_traced items K st tr st' :
  Traced f items st → obeys f K st tr → run K st tr = Some st' →
  Traced f items st'.
Proof.
  revert st. induction tr as [|ev tr IH]; intros st HT Hob Hrun;
    simpl in Hrun, Hob.
  - by injection Hrun as <-.
  - destruct (step K st ev) as [st1|] eqn:Hstep; [|done].
    destruct Hob as [Hob1 Hob2]. apply (IH st1); try done.
    apply (step_traced items K st ev); try done.
    simpl. by rewrite Hstep.
Qed.

Lemma processConcurrently_traced items c K :
  Traced f items (processConcurrently items c K).
Proof.
  unfold processConcurrently.
  assert (∀ i st, Traced f items st → Traced f items (launch K i st)) as Hlaunch.
  { induction i as [|i IH]; intros st HT; simpl; [done|].
    by apply IH, processNext_traced. }
  apply Hlaunch. split; simpl; try done. by intros s [].
Qed.

End Provenance.

(** A transform that never rejects gives traces without rejections. *)
Lemma obeys_rejection_free (f : Item → Outcome) K st tr st' :
  (∀ x err, f x ≠ Rejected err) →
  run K st tr = Some st' → obeys f K st tr → rejection_free tr = true.
Proof.
  intros Hf. revert st. induction tr as [|ev tr IH]; intros st Hrun Hob;
    simpl in Hrun, Hob; [done|].
  destruct (step K st ev) as [st1|] eqn:Hstep; [|done].
  destruct Hob as [Hob1 Hob2]. specialize (IH st1 Hrun Hob2).
  destruct ev as [i [r|err] | | how]; simpl; try done.
  simpl in Hstep. destruct (inflight st !! i) as [item|]; [|done].
  by destruct (Hf item err).
Qed.

Lemma steady_done_iff items K st :
  Steady items K st →
  heartbeat st = false ↔ queue st = [] ∧ activePromises st = 0.
Proof.
  intros [[_ Ha _ Ht _ _ _ _] _ Hon]. split.
  - intros Hoff. destruct (Ht Hoff) as [Hq Hi]. by rewrite Ha, Hi.
  - intros [Hq Ha0]. apply Hon; [done|]. apply length_zero_iff_nil. lia.
Qed.

End MoreHandlers.

(** ** Further facts about the registry *)

Lemma find_snoc (P : Session → bool) (l : list Session) (x : Session) :
  find P (l ++ [x]) =
  match find P l with
  | Some y => Some y
  | None => if P x then Some x else None
  end.
Proof.
  induction l as [|y l IH]; simpl; [done|]. by destruct (P y).
Qed.

Lemma find_none_iff (P : Session → bool) (l : list Session) :
  find P l = None ↔ ∀ s, In s l → P s = false.
Proof.
  induction l as [|y l IH]; simpl.
  - split; [by intros _ s [] | done].
  - destruct (P y) eqn:Hy.
    + split; [done|]. intros H. specialize (H y (or_introl eq_refl)).
      congruence.
    + rewrite IH. split.
      * intros H s [<- | Hs]; [done | by apply H].
      * intros H s Hs. apply H. by right.
Qed.

(** With distinct objects, the identity determines the member. *)
Lemma unique_refs_inj (l : list Session) (s1 s2 : Session) :
  NoDup (map ref l) → In s1 l → In s2 l → ref s1 = ref s2 → s1 = s2.
Proof.
  induction l as [|x l IH]; simpl; [done|].
  intros Hnd [-> | H1] [-> | H2] Href; try done.
  - apply NoDup_cons in Hnd as [Hx _]. exfalso. apply Hx.
    rewrite Href. apply list_elem_of_In, in_map, H2.
  - apply NoDup_cons in Hnd as [Hx _]. exfalso. apply Hx.
    rewrite <- Href. apply list_elem_of_In, in_map, H1.
  - apply NoDup_cons in Hnd as [_ Hnd]. by apply IH.
Qed.

Lemma filter_out_absent (n : nat) (l : list Session) :
  ¬ In n (map ref l) → filter (λ s, ref s ≠ n) l = l.
Proof.
  induction l as [|x l IH]; simpl; [done|]. intros Hn.
  rewrite filter_cons_True by (intros Heq; apply Hn; by left).
  f_equal. apply IH. intros Hin. apply Hn. by right.
Qed.

Lemma filter_out_one (s : Session) (l : list Session) :
  NoDup (map ref l) → In s l →
  length (filter (λ s', ref s' ≠ ref s) l) + 1 = length l.
Proof.
  induction l as [|x l IH]; simpl; [done|].
  intros Hnd Hin. apply NoDup_cons in Hnd as [Hx Hnd].
  destruct (decide (ref x = ref s)) as [Heq | Hne].
  - rewrite filter_cons_False by (intros H; by apply H).
    rewrite filter_out_absent; [lia|].
    rewrite <- Heq. intros H. by apply Hx, list_elem_of_In.
  - rewrite filter_cons_True by done. simpl.
    destruct Hin as [-> | Hin]; [done|]. rewrite <- (IH Hnd Hin). lia.
Qed.

Lemma serve_well_formed (r : Request) (reg : Registry) :
  well_formed reg →
  well_formed (serve r reg) ∧
  allocated (serve r reg) = allocated reg + submissions [r] ∧
  length (sessions (serve r reg)) ≤ length (sessions reg) + submissions [r].
Proof.
  intros [Hnd Hlt]. destruct r as [uuid requestBody | sessionId | session].
  - simpl. split; [split|]; simpl.
    + rewrite map_app. simpl. apply NoDup_app. split; [done|]. split.
      * intros n Hn Hn'. apply list_elem_of_singleton in Hn'. subst n.
        apply list_elem_of_In, in_map_iff in Hn as (s & Hs & Hin).
        rewrite Forall_forall in Hlt.
        apply list_elem_of_In, Hlt in Hin. lia.
      * apply NoDup_singleton.
    + apply Forall_app. split.
      * eapply Forall_impl; [exact Hlt|]. simpl. intros s Hs. lia.
      * constructor; [simpl; lia | constructor].
    + rewrite length_app. simpl. lia.
  - simpl. unfold GET. destruct (find _ _); simpl; (split; [done|lia]).
  - simpl. split; [split|]; simpl.
    + clear Hlt. induction (sessions reg) as [|x l IH]; [done|].
      simpl in Hnd. apply NoDup_cons in Hnd as [Hx Hnd].
      destruct (decide (ref x ≠ ref session)) as [Hr | Hr].
      * rewrite filter_cons_True by done. simpl. apply NoDup_cons.
        split; [|by apply IH]. intros Hin. apply Hx.
        apply list_elem_of_In, in_map_iff in Hin as (s & Hs & Hin).
        apply list_elem_of_In, list_elem_of_filter in Hin as [_ Hin].
        rewrite <- Hs. apply list_elem_of_In, in_map.
        by apply list_elem_of_In.
      * rewrite filter_cons_False by done. by apply IH.
    + rewrite Forall_forall in Hlt. apply Forall_forall. intros s Hs.
      apply list_elem_of_filter in Hs as [_ Hs]. by apply Hlt.
    + split; [lia|]. rewrite Nat.add_0_r. apply length_filter.
Qed.

(** ** Further facts about the client store *)

Section MoreStoreFacts.

Context {T : Type} (key : T → string) (parseData : string → T + Err).
Variable CLOSED : nat.

Lemma receive_app (a b : list string) (store : Store) :
  receive key parseData (a ++ b) store =
  receive key parseData b (receive key parseData a store).
Proof.
  revert store. induction a as [|d a IH]; intros store; simpl; [done|].
  apply IH.
Qed.

Lemma parsed_app (a b : list string) :
  parsed parseData (a ++ b) = parsed parseData a ++ parsed parseData b.
Proof.
  induction a as [|d a IH]; simpl; [done|].
  destruct (parseData d); simpl; by rewrite IH.
Qed.

Lemma latest_app (k : string) (a b : list T) :
  latest key k (a ++ b) =
  match latest key k b with
  | Some r => Some r
  | None => latest key k a
  end.
Proof.
  induction a as [|r a IH]; simpl.
  - by destruct (latest key k b).
  - rewrite IH. by destruct (latest key k b).
Qed.

Lemma latest_Some (k : string) (l : list T) (r : T) :
  latest key k l = Some r → In r l ∧ key r = k.
Proof.
  induction l as [|x l IH]; simpl; [done|].
  destruct (latest key k l) as [r'|].
  - intros [= ->]. destruct IH as [Hin Hk]; [done|]. split; [by right|done].
  - case_bool_decide as Hk; [|done]. intros [= ->]. split; [by left|done].
Qed.

Lemma latest_None (k : string) (l : list T) :
  latest key k l = None ↔ ∀ r, In r l → key r ≠ k.
Proof.
  induction l as [|x l IH]; simpl.
  - split; [by intros _ r [] | done].
  - destruct (latest key k l) as [r'|] eqn:Hl.
    + split; [done|]. intros H. apply latest_Some in Hl as [Hin Hk].
      destruct (H r' (or_intror Hin) Hk).
    + case_bool_decide as Hk.
      * split; [done|]. intros H. destruct (H x (or_introl eq_refl) Hk).
      * split; [|done]. intros _ r [<- | Hr]; [done|].
        destruct IH as [IH _]. by apply IH.
Qed.

Lemma latest_unique (k : string) (l : list T) (r : T) :
  NoDup (map key l) → In r l → key r = k → latest key k l = Some r.
Proof.
  intros Hnd Hin Hk.
  destruct (latest key k l) as [r'|] eqn:Hl.
  - apply latest_Some in Hl as [Hin' Hk']. f_equal.
    clear -Hnd Hin Hin' Hk Hk'. subst k.
    induction l as [|x l IH]; simpl in *; [done|].
    apply NoDup_cons in Hnd as [Hx Hnd].
    destruct Hin as [-> | Hin], Hin' as [-> | Hin']; try done.
    + exfalso. apply Hx. rewrite <- Hk'.
      apply list_elem_of_In, in_map, Hin'.
    + exfalso. apply Hx. rewrite Hk'.
      apply list_elem_of_In, in_map, Hin.
    + by apply IH.
  - destruct (latest_None k l) as [H _]. destruct (H Hl r Hin Hk).
Qed.

Lemma parsed_Permutation (a b : list string) :
  a ≡ₚ b → parsed parseData a ≡ₚ parsed parseData b.
Proof.
  induction 1 as [|d a b _ IH|d1 d2 a|a b c _ IH1 _ IH2]; simpl.
  - done.
  - destruct (parseData d); [by constructor | done].
  - destruct (parseData d1), (parseData d2); try done. apply perm_swap.
  - by etrans.
Qed.

Lemma dispatch_all_app (a b : list Incoming) (conn : Connection) :
  dispatch_all key parseData CLOSED (a ++ b) conn =
  dispatch_all key parseData CLOSED b
    (dispatch_all key parseData CLOSED a conn).
Proof.
  revert conn. induction a as [|ev a IH]; intros conn; simpl; [done|].
  apply IH.
Qed.

End MoreStoreFacts.

(** ** Further properties of the processor *)


(** X2.  The sink is append-only: whatever handlers run, in whatever
    state, the chunks already accepted stay where they are and new ones
    are only added behind them. *)
Theorem sink_append_only
    {Item : Type} (K : nat) (st st' : @Run Item) (tr : list Event) :
  run K st tr = Some st' → sink st `prefix_of` sink st'.
Proof.
  revert st. induction tr as [|ev tr IH]; intros st Hrun; simpl in Hrun.
  - by injection Hrun as <-.
  - destruct (step K st ev) as [st1|] eqn:Hstep; [|done].
    etrans; [by apply (step_sink_prefix K st ev) | by apply IH].
Qed.

Lemma sink_append_only_witness :
  ∃ st,
    run 2 (processConcurrently ["a"; "b"] Readable 2)
        [Tick; Settle 1 (Fulfilled (Some "B")); Shut Closed;
         Settle 0 (Fulfilled (Some "A"))] = Some st ∧
    sink (processConcurrently ["a"; "b"] Readable 2) `prefix_of` sink st.
Proof.
  eexists. split; [vm_compute; reflexivity|].
  apply (sink_append_only 2 _ _
           [Tick; Settle 1 (Fulfilled (Some "B")); Shut Closed;
            Settle 0 (Fulfilled (Some "A"))]).
  vm_compute. reflexivity.
Defined.

(** X3.  Once the stream is no longer readable, nothing is written any
    more and the stream stays shut: every later handler leaves the sink
    and the state of the controller as they are. *)
Theorem sink_frozen_after_shut
    {Item : Type} (K : nat) (st st' : @Run Item) (tr : list Event) :
  chan st ≠ Readable → run K st tr = Some st' →
  sink st' = sink st ∧ chan st' = chan st.
Proof.
  revert st. induction tr as [|ev tr IH]; intros st Hc Hrun; simpl in Hrun.
  - by injection Hrun as <-.
  - destruct (step K st ev) as [st1|] eqn:Hstep; [|done].
    destruct (step_shut K st ev st1 Hc Hstep) as [Hs1 Hc1].
    destruct (IH st1) as [Hs Hc']; [by rewrite Hc1 | done |].
    by rewrite Hs, Hc', Hs1, Hc1.
Qed.

Lemma sink_frozen_after_shut_witness :
  ∃ st1 st2,
    run 2 (processConcurrently ["a"; "b"; "c"] Readable 2)
        [Settle 0 (Fulfilled (Some "A")); Shut Closed] = Some st1 ∧
    sink st1 = [Data "A"; Separator] ∧
    run 2 st1 [Tick; Settle 0 (Fulfilled (Some "B"));
               Settle 0 (Fulfilled (Some "C"))] = Some st2 ∧
    sink st2 = sink st1 ∧ chan st2 = chan st1.
Proof.
  do 2 eexists. split; [vm_compute; reflexivity|].
  split; [reflexivity|]. split; [vm_compute; reflexivity|].
  match goal with |- sink ?s2 = sink ?s1 ∧ _ =>
    apply (sink_frozen_after_shut 2 s1 s2
             [Tick; Settle 0 (Fulfilled (Some "B"));
              Settle 0 (Fulfilled (Some "C"))])
  end; [discriminate | vm_compute; reflexivity].
Defined.

(** X4.  The sink of a run is always well framed: every data chunk is a
    non-empty string, it is immediately followed by its separator chunk,
    and no separator is written on its own; a falsy result writes
    nothing. *)
Theorem sink_is_framed
    {Item : Type} (items : list Item) (c : Chan) (K : nat)
    (tr : list Event) (st : Run) :
  run K (processConcurrently items c K) tr = Some st → Framed (sink st).
Proof.
  assert (Framed (sink (processConcurrently items c K))) as H0.
  { apply launch_framed. constructor. }
  revert H0. generalize (processConcurrently items c K).
  induction tr as [|ev tr IH]; intros st0 H0 Hrun; simpl in Hrun.
  - by injection Hrun as <-.
  - destruct (step K st0 ev) as [st1|] eqn:Hstep; [|done].
    apply (IH st1); [|done]. by apply (step_framed K st0 ev).
Qed.

Lemma sink_is_framed_witness :
  ∃ st,
    run 2 (processConcurrently ["a"; "b"; "c"] Readable 2)
        [Settle 1 (Fulfilled (Some "B")); Tick;
         Settle 0 (Fulfilled (Some EmptyString));
         Settle 0 (Fulfilled None)] = Some st ∧
    sink st = [Data "B"; Separator; Heartbeat; EndOfStream] ∧
    Framed (sink st).
Proof.
  eexists. split; [vm_compute; reflexivity|]. split; [reflexivity|].
  apply (sink_is_framed ["a"; "b"; "c"] Readable 2
           [Settle 1 (Fulfilled (Some "B")); Tick;
            Settle 0 (Fulfilled (Some EmptyString));
            Settle 0 (Fulfilled None)]).
  vm_compute. reflexivity.
Defined.

(** X5.  On a stream that stays readable and with a transform that never
    rejects, the promise behaves as the doc comment of
    [processConcurrently] says: it is pending while items wait or are in
    flight and resolved once all items have been processed, it is never
    rejected, nothing is logged and no rejection is left unhandled. *)
Theorem promise_resolves_once_all_processed
    {Item : Type} (items : list Item) (K : nat)
    (tr : list Event) (st : Run) :
  0 < K →
  run K (processConcurrently items Readable K) tr = Some st →
  undisturbed tr = true → rejection_free tr = true →
  (promise st = Resolved ↔ queue st = [] ∧ activePromises st = 0) ∧
  (promise st = Pending ↔ ¬ (queue st = [] ∧ activePromises st = 0)) ∧
  logged st = [] ∧ unhandled st = [].
Proof.
  intros HK Hrun Hund Hrej.
  pose proof (processConcurrently_steady items Readable K HK) as H0.
  pose proof (run_steady items K _ tr st H0 Hrun)
    as [[_ Ha _ Ht _ _ _ _] _ Hon].
  destruct (run_clean K _ tr st (processConcurrently_clean items K)
              Hund Hrej Hrun) as [_ Hl Hu Hp].
  assert (heartbeat st = false ↔ queue st = [] ∧ activePromises st = 0)
    as Hiff.
  { split.
    - intros Hoff. destruct (Ht Hoff) as [Hq Hi]. by rewrite Ha, Hi.
    - intros [Hq Ha0]. apply Hon; [done|]. apply length_zero_iff_nil. lia. }
  rewrite Hp. split; [|split; [|done]]; destruct (heartbeat st).
  - split; [done|]. intros Hdone. by apply Hiff in Hdone.
  - split; [|done]. intros _. by apply Hiff.
  - split; [|done]. intros _ Hdone. by apply Hiff in Hdone.
  - split; [done|]. intros Hnot. destruct Hnot. by apply Hiff.
Qed.

Lemma promise_resolves_once_all_processed_witness :
  ∃ st1 st2,
    run 1 (processConcurrently ["a"; "b"] Readable 1)
        [Settle 0 (Fulfilled (Some "A")); Tick] = Some st1 ∧
    promise st1 = Pending ∧
    run 1 (processConcurrently ["a"; "b"] Readable 1)
        [Settle 0 (Fulfilled (Some "A")); Tick; Settle 0 (Fulfilled None)]
      = Some st2 ∧
    promise st2 = Resolved.
Proof.
  do 2 eexists. split; [vm_compute; reflexivity|]. split; [reflexivity|].
  split; [vm_compute; reflexivity|].
  match goal with |- promise ?s = Resolved =>
    destruct (promise_resolves_once_all_processed
                ["a"; "b"] 1
                [Settle 0 (Fulfilled (Some "A")); Tick;
                 Settle 0 (Fulfilled None)]
                s ltac:(lia) ltac:(vm_compute; reflexivity)
                eq_refl eq_refl) as ([_ Hres] & _)
  end.
  apply Hres. split; reflexivity.
Defined.

(** X6.  The first rejection decides: if no transform has rejected and
    the stream was left alone up to some settlement, and that settlement
    is a rejection with [err], the promise is rejected with [err] and
    stays so whatever happens afterwards, later rejections and a shut
    stream included. *)
Theorem first_rejection_wins
    {Item : Type} (items : list Item) (K : nat)
    (before after : list Event) (i : nat) (err : Err) (st : Run) :
  0 < K →
  run K (processConcurrently items Readable K)
      (before ++ Settle i (Rejected err) :: after) = Some st →
  undisturbed before = true → rejection_free before = true →
  promise st = RejectedWith err.
Proof.
  intros HK Hrun Hund Hrej.
  apply run_app in Hrun as (st1 & Hrun1 & Hrun2).
  pose proof (processConcurrently_steady items Readable K HK) as H0.
  pose proof (run_steady items K _ before st1 H0 Hrun1)
    as [[_ _ _ Ht _ _ _ _] _ _].
  destruct (run_clean K _ before st1 (processConcurrently_clean items K)
              Hund Hrej Hrun1) as [_ _ _ Hp].
  cbn [run] in Hrun2.
  destruct (step K st1 (Settle i (Rejected err))) as [st2|] eqn:Hstep;
    [|done].
  apply (run_rejected K st2 after st); [done|].
  simpl in Hstep. destruct (inflight st1 !! i) as [item|] eqn:Hi; [|done].
  injection Hstep as <-.
  assert (heartbeat st1 = true) as Hhb.
  { destruct (heartbeat st1); [done|].
    destruct Ht as [_ Hnil]; [done|]. by rewrite Hnil in Hi. }
  rewrite Hhb in Hp. apply processNext_rejected. simpl. by rewrite Hp.
Qed.

Lemma first_rejection_wins_witness :
  ∃ st,
    run 2 (processConcurrently ["a"; "b"; "c"] Readable 2)
        ([Tick; Settle 0 (Fulfilled (Some "A"))] ++
         Settle 1 (Rejected (Thrown "first")) ::
         [Shut Closed; Settle 0 (Rejected (Thrown "second"))]) = Some st ∧
    promise st = RejectedWith (Thrown "first").
Proof.
  eexists. split; [vm_compute; reflexivity|].
  apply (first_rejection_wins ["a"; "b"; "c"] 2
           [Tick; Settle 0 (Fulfilled (Some "A"))]
           [Shut Closed; Settle 0 (Rejected (Thrown "second"))]
           1 (Thrown "first"));
    [lia | vm_compute; reflexivity | reflexivity | reflexivity].
Defined.

(** X7.  Nothing but results reaches the sink as data: when the
    settlements are those of a pure transform, every data chunk of the
    sink is a chunk that transform yields for one of the input items. *)
Theorem data_chunks_come_from_items
    {Item : Type} (f : Item → Outcome) (items : list Item) (c : Chan)
    (K : nat) (tr : list Event) (st : Run) :
  run K (processConcurrently items c K) tr = Some st →
  obeys f K (processConcurrently items c K) tr →
  data_from f items (sink st).
Proof.
  intros Hrun Hob.
  destruct (run_traced f items K _ tr st
              (processConcurrently_traced f items c K) Hob Hrun)
    as [_ Hitems Hdata].
  intros s Hs. destruct (Hdata s Hs) as (item & Hin & Hchunk).
  exists item. split; [|done]. apply Hitems, in_app_iff. by left.
Qed.

Lemma data_chunks_come_from_items_witness :
  ∃ st,
    run 2 (processConcurrently ["a"; "b"] Readable 2)
        [Settle 1 (Endpoint.processItem "b"); Tick;
         Settle 0 (Endpoint.processItem "a")] = Some st ∧
    data_from Endpoint.processItem ["a"; "b"] (sink st).
Proof.
  eexists. split; [vm_compute; reflexivity|].
  apply (data_chunks_come_from_items Endpoint.processItem ["a"; "b"]
           Readable 2
           [Settle 1 (Endpoint.processItem "b"); Tick;
            Settle 0 (Endpoint.processItem "a")]).
  - vm_compute. reflexivity.
  - vm_compute. repeat split.
Defined.

(** ** Further properties of the endpoints *)

(** X8.  For a session whose body is a list of strings, a stream opened
    by [GET] and left alone by the client only carries data lines of the
    session: every data chunk is the text
    [data: ] followed by an item of the body and a newline; the run is
    never rejected, logs nothing and leaves no rejection unhandled; and
    its promise is resolved exactly when all items are processed. *)
Theorem GET_stream_carries_data_lines
    (sessionId : option string) (reg reg' : Registry)
    (session : Session) (stream st : Run) (tr : list Event) :
  GET sessionId reg = (EventStream session stream, reg') →
  run 5 stream tr = Some st →
  obeys processItem 5 stream tr →
  undisturbed tr = true →
  (∀ s, In (Data s) (sink st) →
        ∃ item, In item (body session) ∧
                s = String.append "data: " (String.append item nl)) ∧
  (∀ err, promise st ≠ RejectedWith err) ∧
  (promise st = Resolved ↔ queue st = [] ∧ activePromises st = 0) ∧
  logged st = [] ∧ unhandled st = [].
Proof.
  intros Hget Hrun Hob Hund. unfold GET in Hget.
  destruct (find _ (sessions reg)) as [s|]; [|done].
  remember (processConcurrently (body s) Readable 5) as p eqn:Hstream.
  injection Hget as -> <- <-. subst p.
  assert (0 < 5) as H5 by lia.
  assert (rejection_free tr = true) as Hrej.
  { by apply (obeys_rejection_free processItem 5
                (processConcurrently (body session) Readable 5) tr st). }
  pose proof (processConcurrently_steady (body session) Readable 5 H5) as H0.
  pose proof (run_steady (body session) 5 _ tr st H0 Hrun) as HS.
  destruct (run_clean 5 _ tr st (processConcurrently_clean (body session) 5)
              Hund Hrej Hrun) as [_ Hl Hu Hp].
  destruct (run_traced processItem (body session) 5 _ tr st
              (processConcurrently_traced processItem (body session) Readable 5)
              Hob Hrun) as [_ Hitems Hdata].
  pose proof (steady_done_iff (body session) 5 st HS) as Hiff.
  split; [|split; [|split; [|done]]].
  - intros text Hin. destruct (Hdata text Hin) as (item & Hitem & Hchunk).
    exists item. split; [apply Hitems, in_app_iff; by left|].
    simpl in Hchunk. destruct Hchunk as [Heq | [Heq | []]]; [|done].
    by injection Heq as <-.
  - intros err. rewrite Hp. by destruct (heartbeat st).
  - rewrite Hp, <- Hiff. by destruct (heartbeat st).
Qed.

Lemma GET_stream_carries_data_lines_witness :
  ∃ session stream reg st,
    GET (Some "s1") (snd (POST "s1" ["a"; "b"] Endpoint.empty)) =
      (EventStream session stream, reg) ∧
    run 5 stream [Settle 1 (processItem "b"); Tick;
                  Settle 0 (processItem "a")] = Some st ∧
    promise st = Resolved ∧
    ∀ s, In (Data s) (sink st) →
         ∃ item, In item (body session) ∧
                 s = String.append "data: " (String.append item nl).
Proof.
  do 4 eexists. split; [vm_compute; reflexivity|].
  split; [vm_compute; reflexivity|]. split; [reflexivity|].
  match goal with
  | |- ∀ s, In (Data s) (sink ?st) → ∃ item, In item (body ?session) ∧ _ =>
      eapply (GET_stream_carries_data_lines
                (Some "s1") (snd (POST "s1" ["a"; "b"] Endpoint.empty)) _
                session _ st
                [Settle 1 (processItem "b"); Tick;
                 Settle 0 (processItem "a")])
  end.
  - vm_compute. reflexivity.
  - vm_compute. reflexivity.
  - vm_compute. repeat split.
  - reflexivity.
Defined.

(** X9.  A finished run is quiet: once the promise is resolved on a
    readable stream, [start] closes the stream without touching the
    sink, and after that no handler of the run is left to fire, so
    nothing is ever written to the closed stream. *)
Theorem stream_quiet_after_close
    (items : list string) (K : nat) (tr : list Event) (st : Run) :
  0 < K →
  run K (processConcurrently items Readable K) tr = Some st →
  chan st = Readable → promise st = Resolved →
  ∃ st', start_resume st = Some st' ∧
         chan st' = Closed ∧ sink st' = sink st ∧
         ∀ ev, step K st' ev = None.
Proof.
  intros HK Hrun Hc Hp.
  pose proof (processConcurrently_steady items Readable K HK) as H0.
  pose proof (run_steady items K _ tr st H0 Hrun)
    as [[_ _ _ Ht Hr _ _ _] _ _].
  destruct (Ht (Hr Hp)) as [_ Hi].
  exists (with_chan st Closed). unfold start_resume. rewrite Hp, Hc.
  split; [done|]. split; [done|]. split; [done|].
  intros [i o | | how]; simpl.
  - by rewrite Hi.
  - by rewrite (Hr Hp).
  - by destruct how.
Qed.

Lemma stream_quiet_after_close_witness :
  ∃ st st',
    run 1 (processConcurrently ["a"] Readable 1)
        [Tick; Settle 0 (processItem "a")] = Some st ∧
    start_resume st = Some st' ∧ chan st' = Closed ∧
    step 1 st' Tick = None.
Proof.
  assert (∃ st, run 1 (processConcurrently ["a"] Readable 1)
                    [Tick; Settle 0 (processItem "a")] = Some st ∧
                chan st = Readable ∧ promise st = Resolved)
    as (st & Hrun & Hc & Hp).
  { eexists. split; [vm_compute; reflexivity|]. split; reflexivity. }
  destruct (stream_quiet_after_close ["a"] 1
              [Tick; Settle 0 (processItem "a")] st ltac:(lia) Hrun Hc Hp)
    as (st' & Hres & Hclosed & _ & Hquiet).
  exists st, st'. split; [exact Hrun|]. split; [exact Hres|].
  split; [exact Hclosed | apply Hquiet].
Defined.

(** X10.  Submission and stream request round-trip: after a [POST] whose
    generated id is not yet in the registry, a [GET] with that id opens a
    stream over the submitted body, run with concurrency 5 on a readable
    stream, and leaves the registry as the [POST] left it. *)
Theorem POST_then_GET_opens_submitted_body
    (uuid : string) (requestBody : list string) (reg : Registry) :
  ¬ In uuid (map id (sessions reg)) →
  GET (Some (fst (POST uuid requestBody reg)))
      (snd (POST uuid requestBody reg)) =
  (EventStream (mkSession (allocated reg) uuid requestBody)
               (processConcurrently requestBody Readable 5),
   snd (POST uuid requestBody reg)).
Proof.
  intros Hfresh. unfold GET. simpl. rewrite find_snoc.
  assert (find (λ s, bool_decide (Some (id s) = Some uuid)) (sessions reg)
          = None) as ->.
  { apply find_none_iff. intros s Hs. apply bool_decide_eq_false_2.
    intros [= Heq]. apply Hfresh. rewrite <- Heq. apply in_map, Hs. }
  simpl. by rewrite bool_decide_eq_true_2.
Qed.

Lemma POST_then_GET_opens_submitted_body_witness :
  GET (Some "s2")
      (snd (POST "s2" ["x"; "y"] (snd (POST "s1" ["a"] Endpoint.empty)))) =
  (EventStream (mkSession 1 "s2" ["x"; "y"])
               (processConcurrently ["x"; "y"] Readable 5),
   snd (POST "s2" ["x"; "y"] (snd (POST "s1" ["a"] Endpoint.empty)))).
Proof.
  apply (POST_then_GET_opens_submitted_body
           "s2" ["x"; "y"] (snd (POST "s1" ["a"] Endpoint.empty))).
  simpl. intros [Heq | []]. discriminate Heq.
Defined.

(** X11.  A submission never changes what an id already opens: if a
    [GET] found a session before a [POST], the same [GET] finds the same
    session after it, also when the new session carries the same id (the
    older member of the set is found first). *)
Theorem POST_keeps_earlier_sessions
    (sessionId : option string) (uuid : string)
    (requestBody : list string) (reg : Registry)
    (session : Session) (stream : Run) :
  GET sessionId reg = (EventStream session stream, reg) →
  GET sessionId (snd (POST uuid requestBody reg)) =
  (EventStream session stream, snd (POST uuid requestBody reg)).
Proof.
  unfold GET. simpl. rewrite find_snoc.
  destruct (find _ (sessions reg)) as [s|]; [|done].
  remember (processConcurrently (body s) Readable 5) as p eqn:Hp.
  intros [= -> <-]. by rewrite Hp.
Qed.

Lemma POST_keeps_earlier_sessions_witness :
  GET (Some "s1")
      (snd (POST "s1" ["other"] (snd (POST "s1" ["a"] Endpoint.empty)))) =
  (EventStream (mkSession 0 "s1" ["a"])
               (processConcurrently ["a"] Readable 5),
   snd (POST "s1" ["other"] (snd (POST "s1" ["a"] Endpoint.empty)))).
Proof.
  apply (POST_keeps_earlier_sessions
           (Some "s1") "s1" ["other"]
           (snd (POST "s1" ["a"] Endpoint.empty))
           (mkSession 0 "s1" ["a"])
           (processConcurrently ["a"] Readable 5)).
  vm_compute. reflexivity.
Defined.

(** X12.  [GET] answers with the 404 condition exactly when no member of
    the registry carries the requested id; in particular a request
    without the [sessionId] parameter is always answered with it.  In
    either case [GET] leaves the registry as it is. *)
Theorem GET_not_found_iff (sessionId : option string) (reg : Registry) :
  (fst (GET sessionId reg) = NotFound ↔
   ∀ s, In s (sessions reg) → Some (id s) ≠ sessionId) ∧
  GET None reg = (NotFound, reg) ∧
  snd (GET sessionId reg) = reg.
Proof.
  split; [|split].
  - unfold GET. destruct (find _ (sessions reg)) as [s|] eqn:Hfind; simpl.
    + split; [done|]. intros H.
      apply find_some_in in Hfind as [Hin Hid].
      apply bool_decide_eq_true in Hid. destruct (H s Hin Hid).
    + split; [|done]. intros _ s Hs.
      destruct (find_none_iff
                  (λ s, bool_decide (Some (id s) = sessionId))
                  (sessions reg)) as [Hnone _].
      specialize (Hnone Hfind s Hs). by apply bool_decide_eq_false in Hnone.
  - unfold GET. destruct (find _ (sessions reg)) as [s|] eqn:Hfind; [|done].
    apply find_some_in in Hfind as [_ Hid].
    by apply bool_decide_eq_true in Hid.
  - unfold GET. by destruct (find _ (sessions reg)).
Qed.

(** X13.  Whatever submissions, stream requests and disconnects the
    server has handled since it started, the members of the registry are
    distinct objects made by [POST], the number of objects made is the
    number of submissions, and the registry holds at most that many
    sessions. *)
Theorem registry_stays_well_formed (rs : list Request) :
  well_formed (serve_all rs Endpoint.empty) ∧
  allocated (serve_all rs Endpoint.empty) = submissions rs ∧
  length (sessions (serve_all rs Endpoint.empty)) ≤ submissions rs.
Proof.
  assert (∀ reg, well_formed reg →
            well_formed (serve_all rs reg) ∧
            allocated (serve_all rs reg) = allocated reg + submissions rs ∧
            length (sessions (serve_all rs reg)) ≤
              length (sessions reg) + submissions rs) as Hgen.
  { induction rs as [|r rs IH]; intros reg Hwf.
    - simpl. split; [done|]. lia.
    - destruct (serve_well_formed r reg Hwf) as (Hwf1 & Ha1 & Hl1).
      destruct (IH _ Hwf1) as (Hwf' & Ha' & Hl').
      cbn [serve_all]. split; [done|].
      assert (submissions (r :: rs) = submissions [r] + submissions rs)
        as -> by (by destruct r).
      lia. }
  apply (Hgen Endpoint.empty). split; [apply NoDup_nil_2 | constructor].
Qed.

(** X14.  In a well-formed registry a disconnect removes exactly the
    session of the stream: the registry loses one member, every other
    member stays, and a second disconnect of the same stream changes
    nothing. *)
Theorem cancel_removes_exactly_that_session
    (session : Session) (reg : Registry) :
  well_formed reg → In session (sessions reg) →
  length (sessions (cancel session reg)) + 1 = length (sessions reg) ∧
  (∀ s, In s (sessions (cancel session reg)) ↔
        In s (sessions reg) ∧ s ≠ session) ∧
  cancel session (cancel session reg) = cancel session reg.
Proof.
  intros [Hnd _] Hin. split; [|split].
  - simpl. by apply filter_out_one.
  - intros s. simpl. rewrite <- !list_elem_of_In, list_elem_of_filter.
    rewrite !list_elem_of_In. split.
    + intros [Href Hs]. split; [done|]. by intros ->.
    + intros [Hs Hne]. split; [|done]. intros Href. apply Hne.
      by apply (unique_refs_inj (sessions reg)).
  - unfold cancel. simpl. f_equal.
    apply list_filter_filter_l. done.
Qed.

Lemma cancel_removes_exactly_that_session_witness :
  length (sessions
            (cancel (mkSession 0 "s1" ["a"])
               (serve_all [Submit "s1" ["a"]; Submit "s2" ["b"]]
                  Endpoint.empty))) + 1 = 2.
Proof.
  assert (well_formed (serve_all [Submit "s1" ["a"]; Submit "s2" ["b"]]
                         Endpoint.empty)) as Hwf.
  { split; simpl.
    - apply NoDup_cons. split; [|apply NoDup_singleton].
      intros Hin. apply list_elem_of_singleton in Hin. discriminate Hin.
    - repeat constructor. }
  destruct (cancel_removes_exactly_that_session
              (mkSession 0 "s1" ["a"])
              (serve_all [Submit "s1" ["a"]; Submit "s2" ["b"]]
                 Endpoint.empty) Hwf) as [Hlen _].
  - left. reflexivity.
  - exact Hlen.
Defined.

(** ** Further properties of the client *)

(** X15.  [store.update] runs once for every message the parser accepts
    and for no other: subscribers are notified exactly as often as
    records arrive. *)
Theorem store_updated_once_per_record
    {T : Type} (key : T → string) (parseData : string → T + Err)
    (msgs : list string) (store : Store) :
  updates (receive key parseData msgs store) =
  updates store + length (parsed parseData msgs).
Proof.
  revert store. induction msgs as [|d msgs IH]; intros store; simpl; [lia|].
  rewrite IH. unfold onmessage. destruct (parseData d); simpl; lia.
Qed.

(** X16.  The collection never loses a key: after any messages its keys
    are the keys it had together with the keys of the records the parser
    returned. *)
Theorem collection_keys_only_grow
    {T : Type} (key : T → string) (parseData : string → T + Err)
    (msgs : list string) (store : Store) :
  dom (value (receive key parseData msgs store)) =
  dom (value store) ∪ list_to_set (key <$> parsed parseData msgs).
Proof.
  revert store. induction msgs as [|d msgs IH]; intros store; simpl.
  - by rewrite union_empty_r_L.
  - rewrite IH. unfold onmessage. destruct (parseData d) as [r|err]; simpl.
    + rewrite dom_insert_L. apply set_eq. intros x.
      rewrite !elem_of_union. unfold fmap. tauto.
    + done.
Qed.

(** X17.  Replaying a stream is harmless: receiving a sequence of
    messages a second time, as after a reconnect that restarts the
    stream, leaves the collection as it was after the first time. *)
Theorem replayed_stream_changes_nothing
    {T : Type} (key : T → string) (parseData : string → T + Err)
    (msgs : list string) (store : Store) :
  value (receive key parseData (msgs ++ msgs) store) =
  value (receive key parseData msgs store).
Proof.
  apply map_eq. intros k.
  rewrite !receive_lookup, parsed_app, latest_app.
  by destruct (latest key k (parsed parseData msgs)).
Qed.

(** X18.  When all records of a stream carry different keys, the order
    in which their messages arrive does not matter for what a key maps
    to: after any rearrangement of the messages every key looks up the
    same record.  (The order in which the [Map] iterates over its
    entries, which is not modelled, can differ.) *)
Theorem arrival_order_irrelevant_for_distinct_keys
    {T : Type} (key : T → string) (parseData : string → T + Err)
    (msgs msgs' : list string) (store : Store) (k : string) :
  NoDup (map key (parsed parseData msgs)) →
  msgs ≡ₚ msgs' →
  value (receive key parseData msgs' store) !! k =
  value (receive key parseData msgs store) !! k.
Proof.
  intros Hnd Hperm. rewrite !receive_lookup.
  pose proof (parsed_Permutation parseData msgs msgs' Hperm) as Hp.
  assert (NoDup (map key (parsed parseData msgs'))) as Hnd'.
  { assert (map key (parsed parseData msgs) ≡ₚ
            map key (parsed parseData msgs')) as Hmap
      by (by apply Permutation_map).
    by rewrite <- Hmap. }
  destruct (latest key k (parsed parseData msgs)) as [r|] eqn:Hl.
  - apply latest_Some in Hl as [Hin Hk].
    rewrite (latest_unique key k _ r Hnd'); [done| |done].
    eapply Permutation_in; [exact Hp | exact Hin].
  - assert (latest key k (parsed parseData msgs') = None) as ->; [|done].
    apply latest_None. intros r Hin.
    destruct (latest_None key k (parsed parseData msgs)) as [Hnone _].
    apply (Hnone Hl). eapply Permutation_in; [symmetry; exact Hp | exact Hin].
Qed.

Lemma arrival_order_irrelevant_for_distinct_keys_witness :
  value (receive keyed_key scenario_parser
           [payload_text "y" "3"; "noise"; payload_text "x" "1"]
           (mkStore ∅ 0)) !! "x" =
  value (receive keyed_key scenario_parser
           [payload_text "x" "1"; payload_text "y" "3"; "noise"]
           (mkStore ∅ 0)) !! "x".
Proof.
  apply (arrival_order_irrelevant_for_distinct_keys
           keyed_key scenario_parser
           [payload_text "x" "1"; payload_text "y" "3"; "noise"]
           [payload_text "y" "3"; "noise"; payload_text "x" "1"]).
  - vm_compute. apply NoDup_cons. split; [|apply NoDup_singleton].
    intros Hin. apply list_elem_of_singleton in Hin. discriminate Hin.
  - apply (Permutation_cons_append
             [payload_text "y" "3"; "noise"] (payload_text "x" "1")).
Defined.

(** X19.  The collection depends on the delivered messages only.  The
    handlers of the end-of-stream event and of error events never touch
    the store, and the message handler does not look at whether
    [close()] was called: after any events, in any order, the store is
    what the message handler makes of the message payloads in order,
    those delivered after an end-of-stream event included.  No handler
    reopens the event source, and once an end-of-stream event was
    handled [close()] has been called. *)
Theorem collection_depends_on_messages_only
    {T : Type} (key : T → string) (parseData : string → T + Err)
    (CLOSED : nat) (evs : list Incoming) (conn : Connection) :
  store (dispatch_all key parseData CLOSED evs conn) =
  receive key parseData (messages evs) (store conn) ∧
  (connected conn = false →
   connected (dispatch_all key parseData CLOSED evs conn) = false) ∧
  (In EndOfStreamEvent evs →
   connected (dispatch_all key parseData CLOSED evs conn) = false).
Proof.
  revert conn. induction evs as [|ev evs IH]; intros conn; [done|].
  cbn [dispatch_all]. unfold dispatch at 1 2 3.
  destruct (IH (handle key parseData CLOSED ev conn)) as (Hs & Hc & He).
  split; [|split].
  - rewrite Hs. destruct ev as [data | | phase]; simpl; try done.
    by destruct (phase =? CLOSED).
  - intros Hoff. apply Hc. destruct ev as [data | | phase]; simpl; try done.
    by destruct (phase =? CLOSED).
  - intros [-> | Hin]; [by apply Hc | by apply He].
Qed.

Lemma collection_depends_on_messages_only_witness :
  value (store
           (dispatch_all keyed_key scenario_parser 2
              [Message (payload_text "x" "1"); EndOfStreamEvent;
               Message (payload_text "x" "2")]
              (mkConnection (mkStore ∅ 0) true []))) !! "x" =
    Some (mkKeyed "x" 2) ∧
  connected
    (dispatch_all keyed_key scenario_parser 2
       [Message (payload_text "x" "1"); EndOfStreamEvent;
        Message (payload_text "x" "2")]
       (mkConnection (mkStore ∅ 0) true [])) = false.
Proof.
  destruct (collection_depends_on_messages_only
              keyed_key scenario_parser 2
              [Message (payload_text "x" "1"); EndOfStreamEvent;
               Message (payload_text "x" "2")]
              (mkConnection (mkStore ∅ 0) true [])) as (Hs & _ & He).
  split.
  - rewrite Hs. simpl. apply lookup_insert_eq.
  - apply He. right. by left.
Defined.

(** X20.  While the connection is open and only messages and error
    events whose phase is not the closed state arrive, the connection
    stays open, the errors are ignored, and the collection is what the
    message handler makes of the message payloads in order. *)
Theorem transient_errors_are_ignored
    {T : Type} (key : T → string) (parseData : string → T + Err)
    (CLOSED : nat) (evs : list Incoming) (conn : Connection) :
  connected conn = true →
  Forall (λ ev, ev ≠ EndOfStreamEvent ∧ ev ≠ ErrorEvent CLOSED) evs →
  connected (dispatch_all key parseData CLOSED evs conn) = true ∧
  store (dispatch_all key parseData CLOSED evs conn) =
  receive key parseData (messages evs) (store conn) ∧
  console (dispatch_all key parseData CLOSED evs conn) = console conn.
Proof.
  revert conn. induction evs as [|ev evs IH]; intros conn Hc Hall; [done|].
  apply Forall_cons in Hall as [[Hne Hnc] Hall].
  cbn [dispatch_all]. unfold dispatch at 1 2 3.
  destruct ev as [data | | phase]; [| done |].
  - destruct (IH (handle key parseData CLOSED (Message data) conn))
      as (Hc' & Hs' & Hl'); done.
  - assert ((phase =? CLOSED) = false) as Hphase.
    { apply Nat.eqb_neq. intros ->. done. }
    simpl. rewrite Hphase. by apply IH.
Qed.

Lemma transient_errors_are_ignored_witness :
  value (store
           (dispatch_all keyed_key scenario_parser 2
              [Message (payload_text "x" "1"); ErrorEvent 0;
               Message (payload_text "x" "2")]
              (mkConnection (mkStore ∅ 0) true []))) =
  <["x" := mkKeyed "x" 2]> ∅.
Proof.
  destruct (transient_errors_are_ignored
              keyed_key scenario_parser 2
              [Message (payload_text "x" "1"); ErrorEvent 0;
               Message (payload_text "x" "2")]
              (mkConnection (mkStore ∅ 0) true []) eq_refl)
    as (_ & -> & _).
  - repeat constructor; discriminate.
  - apply map_eq. intros k. simpl.
    destruct (decide (k = "x")) as [-> | Hk].
    + by rewrite !lookup_insert_eq.
    + by rewrite !lookup_insert_ne.
Defined.

(** X21.  Heartbeats are tied to the activity of the run.  In every
    reachable state the interval is cleared exactly when the queue is
    empty and nothing is in flight, and no handler arms it again; a tick
    can only fire while the interval is armed; a terminal chunk in the
    sink means the interval is cleared; and in the sink no heartbeat
    chunk follows a terminal chunk. *)
Theorem heartbeat_stops_with_run
    {Item : Type} (items : list Item) (c : Chan) (K : nat)
    (tr : list Event) (st : Run) :
  0 < K →
  run K (processConcurrently items c K) tr = Some st →
  (heartbeat st = false ↔ queue st = [] ∧ activePromises st = 0) ∧
  (∀ ev st', step K st ev = Some st' →
             heartbeat st = false → heartbeat st' = false) ∧
  (heartbeat st = false → step K st Tick = None) ∧
  (In EndOfStream (sink st) → heartbeat st = false) ∧
  (∀ before after, sink st = before ++ EndOfStream :: after →
                   ¬ In Heartbeat after).
Proof.
  intros HK Hrun.
  pose proof (processConcurrently_steady items c K HK) as H0.
  pose proof (run_steady items K _ tr st H0 Hrun) as HS.
  pose proof (steady_done_iff items K st HS) as Hiff.
  destruct HS as [[_ _ _ _ _ He Hq _] _ _].
  split; [done|]. split; [|split; [|split]].
  - intros ev st' Hstep. by apply (step_heartbeat_off K st ev).
  - intros Hoff. simpl. by rewrite Hoff.
  - done.
  - done.
Qed.

Lemma heartbeat_stops_with_run_witness :
  ∃ st,
    run 1 (processConcurrently ["a"] Readable 1)
        [Tick; Settle 0 (Fulfilled (Some "A"))] = Some st ∧
    sink st = [Heartbeat; Data "A"; Separator; EndOfStream] ∧
    step 1 st Tick = None.
Proof.
  eexists. split; [vm_compute; reflexivity|]. split; [reflexivity|].
  match goal with |- step 1 ?s Tick = None =>
    pose proof (heartbeat_stops_with_run
                  ["a"] Readable 1 [Tick; Settle 0 (Fulfilled (Some "A"))]
                  s ltac:(lia) ltac:(vm_compute; reflexivity))
      as (_ & _ & Htick & _)
  end.
  apply Htick. reflexivity.
Defined.
